(** * Route selection of a payment-channel node (raiden/routing.py)

    A shallow embedding of [get_best_routes], [get_best_routes_pfs] and
    [resolve_routes], with the properties of the routing specification
    stated and settled against it.

    Python exceptions are carried in a sum type; the calls that matter to
    the specification (usability checks of direct channels, the
    path-finding query, log records) are recorded in a trace, so that
    "no query is issued" and "the value passed to the query" are
    statements about the embedded code. *)

From Stdlib Require Import ZArith.
From Stdlib.Strings Require Import Byte.
From stdpp Require Import gmap strings list fin_maps.

Open Scope Z_scope.

(** ** Scalar types (raiden/utils/typing.py: all are [bytes] or [int]) *)

#[global] Instance byte_eq_dec : EqDecision byte := Byte.byte_eq_dec.

#[global] Program Instance byte_countable : Countable byte :=
  inj_countable Byte.to_N Byte.of_N _.
Next Obligation. intros b. apply Byte.of_to_N. Qed.

Definition Address := list byte.
Definition InitiatorAddress := Address.
Definition TargetAddress := Address.
Definition TokenNetworkAddress := Address.
Definition OneToNAddress := Address.
Definition PrivateKey := list byte.
Definition ChannelID := Z.
Definition BlockNumber := Z.
Definition ChainID := Z.
Definition PaymentAmount := Z.
Definition PaymentWithFeeAmount := Z.
Definition FeeAmount := Z.
Definition UUID := N.

(** ** State model read by the routing code *)

(** Modelled from the spec: the enumeration [ChannelState] of
    raiden/transfer/state.py is not part of the sources at hand; the
    statuses are the ones the data model lists. *)
Inductive ChannelState :=
| STATE_OPENED
| STATE_CLOSING
| STATE_CLOSED
| STATE_SETTLED
| STATE_UNUSABLE.

#[global] Instance ChannelState_eq_dec : EqDecision ChannelState.
Proof. solve_decision. Defined.

(** Modelled from the spec: the outcome set of the usability predicate
    ([channel.ChannelUsability], not part of the sources at hand). *)
Inductive ChannelUsability :=
| USABLE
| NOT_OPENED
| INSUFFICIENT_OWN_CAPACITY
| INSUFFICIENT_PARTNER_CAPACITY
| IS_EXCLUDED_CHANNEL.

#[global] Instance ChannelUsability_eq_dec : EqDecision ChannelUsability.
Proof. solve_decision. Defined.

(** Modelled from the spec: of the channel record only the attributes
    the routing code reads are kept; [finished_block_number] is the block
    at which the opening transaction finalized. *)
Record TransactionExecutionStatus := {
  finished_block_number : BlockNumber
}.

Record NettingChannelState := {
  identifier : ChannelID;
  partner_address : Address;
  open_transaction : TransactionExecutionStatus
}.

(** Modelled from the spec: one token network, with the partner index
    (several channels per partner, in the order they were recorded) and
    the identifier-to-channel dictionary. *)
Record TokenNetworkState := {
  partneraddresses_to_channelidentifiers : gmap Address (list ChannelID);
  channelidentifiers_to_channels : gmap ChannelID NettingChannelState
}.

(** Modelled from the spec: the attributes of the chain state that the
    routing code and its read interface use. *)
Record ChainState := {
  our_address : Address;
  block_number : BlockNumber;
  chain_id : ChainID;
  tokennetworkaddresses_to_tokennetworks : gmap TokenNetworkAddress TokenNetworkState
}.

(** ** Untyped values

    The answer of the path-finding service and the context of its
    failures reach the routing code as untyped data ([Any]): the values
    of a decoded answer, with a float kept as its 64 bits. A dictionary
    keeps the order of its entries. *)
#[local] Set Warnings "-register-all".

Inductive PyValue :=
| PyNone
| PyBool (b : bool)
| PyInt (n : Z)
| PyFloat (bits : N)
| PyStr (s : string)
| PyList (items : list PyValue)
| PyDict (items : list (string * PyValue)).

Coercion PyInt : Z >-> PyValue.

(** A route. The constructor stores the fee it is given: [FeeAmount(0)]
    for a direct or a resolved route, and for a route validated from the
    answer of the service the value found under ["estimated_fee"],
    whatever it is. *)
Record RouteState := {
  route : list Address;
  estimated_fee : PyValue
}.

(** [RouteMetadata.route]: the peer-supplied address sequence. *)
Record RouteMetadata := {
  metadata_route : list Address
}.

(** One entry of the path-finding answer: a dictionary with string keys
    and untyped values, which the code reads at the keys ["path"] and
    ["estimated_fee"]. *)
Abbreviation PathObject := (gmap string PyValue).

(** Modelled from the spec: endpoint, service address and fee policy of
    the path-finding service. *)
Record PFSConfig := {
  pfs_url : string;
  pfs_address : Address;
  maximum_fee : Z
}.

(** The keyword arguments of [query_paths]. *)
Record QueryArgs := {
  q_pfs_config : PFSConfig;
  q_our_address : Address;
  q_privkey : PrivateKey;
  q_current_block_number : BlockNumber;
  q_token_network_address : TokenNetworkAddress;
  q_one_to_n_address : OneToNAddress;
  q_chain_id : ChainID;
  q_route_from : InitiatorAddress;
  q_route_to : TargetAddress;
  q_value : PaymentAmount;
  q_pfs_wait_for_block : BlockNumber
}.

(** ** Exceptions, results and the trace monad *)

(** [ServiceRequestFailed] carries [e.args]: the message [args[0]] and,
    when present, the context [args[1]], an untyped value. *)
Inductive PyExn :=
| AssertionError (msg : string)
| KeyError
| IndexError
| ValueError
| TypeError
| ServiceRequestFailed (args0 : string) (args1 : option PyValue).

Definition result (A : Type) : Type := (PyExn + A)%type.

Definition Ok {A} (x : A) : result A := inr x.
Definition Raise {A} (e : PyExn) : result A := inl e.

#[global] Instance result_ret : MRet result := fun _ x => Ok x.
#[global] Instance result_bind : MBind result := fun _ _ f m =>
  match m with
  | inl e => inl e
  | inr x => f x
  end.

Inductive LogLevel := INFO | WARNING.

Inductive Event :=
| UsabilityChecked (channel_id : ChannelID)
| PathsQueried (args : QueryArgs)
| Logged (level : LogLevel) (event : string).

(** A computation yields the events it performed, in order, and either
    the exception that ended it or its value. *)
Definition M (A : Type) : Type := (list Event * result A)%type.

#[global] Instance M_ret : MRet M := fun _ x => ([], Ok x).
#[global] Instance M_bind : MBind M := fun _ _ f m =>
  match m with
  | (t, inl e) => (t, inl e)
  | (t, inr x) => let '(t', r) := f x in (t ++ t', r)
  end.

Definition emit (ev : Event) : M unit := ([ev], Ok tt).
Definition lift {A} (r : result A) : M A := ([], r).
Definition raise {A} (e : PyExn) : M A := ([], Raise e).

(** [d[k]] on a dictionary and [l[i]] on a list. *)
Definition dict_getitem `{Countable K} {V} (d : gmap K V) (k : K) : result V :=
  match d !! k with
  | Some v => Ok v
  | None => Raise KeyError
  end.

Definition list_getitem {A} (l : list A) (i : nat) : result A :=
  match l !! i with
  | Some x => Ok x
  | None => Raise IndexError
  end.

(** [for node in value]: a list yields its items, a string its
    characters, a dictionary its keys; no other value can be iterated. *)
Definition py_iter (value : PyValue) : result (list PyValue) :=
  match value with
  | PyList items => Ok items
  | PyStr s => Ok ((λ a, PyStr (String a EmptyString)) <$> String.list_ascii_of_string s)
  | PyDict items => Ok (PyStr <$> items.*1)
  | _ => Raise TypeError
  end.

(** Truth value of an [Optional[str]]: [None] and the empty string are
    false. *)
Definition str_truthy (s : string) : bool :=
  match s with
  | EmptyString => false
  | String _ _ => true
  end.

Definition opt_str_truthy (o : option string) : bool :=
  match o with
  | None => false
  | Some s => str_truthy s
  end.

Definition list_truthy {A} (l : list A) : bool :=
  match l with
  | [] => false
  | _ :: _ => true
  end.

(** ** Collaborators outside routing.py

    The read interface of the chain state, the channel predicates, the
    address conversion and the path-finding client are used through
    their signatures only. Of the logger, what matters is which names its
    methods bind themselves (for structlog, its first parameter [event]
    among them): such a name cannot also be passed by keyword. *)
Class Collaborators := {
  get_token_network_by_address :
    ChainState -> TokenNetworkAddress -> option TokenNetworkState;
  get_channelstate_by_token_network_and_partner :
    ChainState -> TokenNetworkAddress -> Address -> option NettingChannelState;
  is_channel_usable_for_new_transfer :
    NettingChannelState -> PaymentWithFeeAmount -> option ChannelID -> ChannelUsability;
  get_status : NettingChannelState -> ChannelState;
  to_canonical_address : PyValue -> result Address;
  query_paths : QueryArgs -> result (list PathObject * option UUID);
  logger_binds : string -> bool
}.

Definition Routes : Type := (option string * list RouteState * option UUID)%type.

(** ** The routing code *)

Section Routing.
Context `{!Collaborators}.

(** Lines 52-68: the loop over the channels recorded for the payee.
    [Some r] stands for the [return r] inside the loop, [None] for the
    loop running to its end. *)
Fixpoint direct_channel_loop (token_network : TokenNetworkState)
    (from_address : InitiatorAddress) (to_address : TargetAddress)
    (amount : PaymentAmount) (channel_ids : list ChannelID)
    : M (option Routes) :=
  match channel_ids with
  | [] => mret None
  | channel_id :: rest =>
      channel_state ←
        lift (dict_getitem (channelidentifiers_to_channels token_network) channel_id);
      let payment_with_fee_amount : PaymentWithFeeAmount := amount in
      _ ← emit (UsabilityChecked channel_id);
      let is_usable :=
        is_channel_usable_for_new_transfer channel_state payment_with_fee_amount None in
      if decide (is_usable = USABLE) then
        let direct_route :=
          {| route := [from_address; to_address]; estimated_fee := 0 |} in
        mret (Some (None, [direct_route], None))
      else
        direct_channel_loop token_network from_address to_address amount rest
  end.

(** Lines 51-68. *)
Definition direct_channel_lookup (token_network : TokenNetworkState)
    (from_address : InitiatorAddress) (to_address : TargetAddress)
    (amount : PaymentAmount) : M (option Routes) :=
  match partneraddresses_to_channelidentifiers token_network !! to_address with
  | Some channel_ids =>
      direct_channel_loop token_network from_address to_address amount channel_ids
  | None => mret None
  end.

(** Lines 70-74: the running maximum over [values()] of the channel
    dictionary, starting from 0. *)
Definition latest_channel_opened_at (token_network : TokenNetworkState) : Z :=
  foldl (fun latest channel_state =>
           Z.max latest (finished_block_number (open_transaction channel_state)))
        0
        ((map_to_list (channelidentifiers_to_channels token_network)).*2).

Definition query_paths_kwargs (chain_state : ChainState)
    (token_network_address : TokenNetworkAddress)
    (one_to_n_address : OneToNAddress)
    (from_address : InitiatorAddress) (to_address : TargetAddress)
    (amount : PaymentAmount) (pfs_config : PFSConfig) (privkey : PrivateKey)
    (pfs_wait_for_block : BlockNumber) : QueryArgs :=
  {| q_pfs_config := pfs_config;
     q_our_address := our_address chain_state;
     q_privkey := privkey;
     q_current_block_number := block_number chain_state;
     q_token_network_address := token_network_address;
     q_one_to_n_address := one_to_n_address;
     q_chain_id := chain_id chain_state;
     q_route_from := from_address;
     q_route_to := to_address;
     q_value := amount;
     q_pfs_wait_for_block := pfs_wait_for_block |}.

(** Line 141: the keyword arguments of a logger call that passes the
    names [fixed] by keyword and splats [log_info] after them. The call
    raises [TypeError] when [log_info] is not a mapping, when one of its
    keys is also passed by keyword, or when one of its keys is a name the
    logger method binds itself. *)
Definition splat_keywords (fixed : list string) (log_info : PyValue)
    : result (list (string * PyValue)) :=
  match log_info with
  | PyDict items =>
      if existsb (λ kv : string * PyValue,
                    bool_decide (kv.1 ∈ fixed) || logger_binds kv.1) items
      then Raise TypeError
      else Ok items
  | _ => Raise TypeError
  end.

(** Lines 144-182: the loop over the answer of the service; [paths] is
    the list being appended to. *)
Fixpoint pfs_paths_loop (chain_state : ChainState)
    (token_network_address : TokenNetworkAddress)
    (previous_address : option Address)
    (pfs_routes : list PathObject) (paths : list RouteState)
    : M (list RouteState) :=
  match pfs_routes with
  | [] => mret paths
  | path_object :: rest =>
      path ← lift (dict_getitem path_object "path");
      estimated_fee ← lift (dict_getitem path_object "estimated_fee");
      nodes ← lift (py_iter path);
      canonical_path ← lift (mapM to_canonical_address nodes);
      partner_address ← lift (list_getitem canonical_path 1);
      if decide (Some partner_address = previous_address) then
        pfs_paths_loop chain_state token_network_address previous_address rest paths
      else
        match get_channelstate_by_token_network_and_partner
                chain_state token_network_address partner_address with
        | None =>
            pfs_paths_loop chain_state token_network_address previous_address rest paths
        | Some channel_state =>
            if decide (get_status channel_state ≠ STATE_OPENED) then
              _ ← emit (Logged INFO "Channel is not opened, ignoring");
              pfs_paths_loop chain_state token_network_address previous_address rest paths
            else
              pfs_paths_loop chain_state token_network_address previous_address rest
                (paths ++ [{| route := canonical_path; estimated_fee := estimated_fee |}])
        end
  end.

(** Lines 112-184. Only [ServiceRequestFailed] is caught. *)
Definition get_best_routes_pfs (chain_state : ChainState)
    (token_network_address : TokenNetworkAddress)
    (one_to_n_address : OneToNAddress)
    (from_address : InitiatorAddress) (to_address : TargetAddress)
    (amount : PaymentAmount) (previous_address : option Address)
    (pfs_config : PFSConfig) (privkey : PrivateKey)
    (pfs_wait_for_block : BlockNumber) : M Routes :=
  let kwargs :=
    query_paths_kwargs chain_state token_network_address one_to_n_address
      from_address to_address amount pfs_config privkey pfs_wait_for_block in
  _ ← emit (PathsQueried kwargs);
  match query_paths kwargs with
  | inl (ServiceRequestFailed args0 args1) =>
      let log_message :=
        if str_truthy args0 then Some ("PFS: " +:+ args0) else None in
      let log_info := default (PyDict []) args1 in
      _ ← lift (splat_keywords ["log_message"] log_info);
      _ ← emit (Logged WARNING "An error with the path request occurred");
      mret (log_message, [], None)
  | inl e => raise e
  | inr (pfs_routes, feedback_token) =>
      paths ← pfs_paths_loop chain_state token_network_address previous_address
                pfs_routes [];
      mret (None, paths, feedback_token)
  end.

(** Lines 31-109. *)
Definition get_best_routes (chain_state : ChainState)
    (token_network_address : TokenNetworkAddress)
    (one_to_n_address : option OneToNAddress)
    (from_address : InitiatorAddress) (to_address : TargetAddress)
    (amount : PaymentAmount) (previous_address : option Address)
    (pfs_config : option PFSConfig) (privkey : PrivateKey) : M Routes :=
  match get_token_network_by_address chain_state token_network_address with
  | None => raise (AssertionError "The token network must be validated and exist.")
  | Some token_network =>
      direct ← direct_channel_lookup token_network from_address to_address amount;
      match direct with
      | Some returned => mret returned
      | None =>
          let latest := latest_channel_opened_at token_network in
          match pfs_config, one_to_n_address with
          | Some pfs_config, Some one_to_n_address =>
              '(pfs_error_msg, pfs_routes, pfs_feedback_token) ←
                get_best_routes_pfs chain_state token_network_address
                  one_to_n_address from_address to_address amount
                  previous_address pfs_config privkey latest;
              if negb (opt_str_truthy pfs_error_msg) then
                if negb (list_truthy pfs_routes) then
                  mret (Some "PFS could not find any routes", [], None)
                else
                  _ ← emit (Logged INFO "Received route(s) from PFS");
                  mret (pfs_error_msg, pfs_routes, pfs_feedback_token)
              else
                _ ← emit (Logged WARNING
                    "Request to Pathfinding Service was not successful. No routes to the target were found.");
                mret (pfs_error_msg, [], None)
          | _, _ =>
              _ ← emit (Logged WARNING "Pathfinding Service could not be used.");
              mret (Some "Pathfinding Service could not be used.", [], None)
          end
      end
  end.

(** Lines 197-216: the loop of [resolve_routes]; [resolvable] is the
    list being appended to. *)
Fixpoint resolve_routes_loop (token_network_address : TokenNetworkAddress)
    (chain_state : ChainState)
    (routes : list RouteMetadata) (resolvable : list RouteState)
    : result (list RouteState) :=
  match routes with
  | [] => mret resolvable
  | route_metadata :: rest =>
      if (length (metadata_route route_metadata) <? 2)%nat then
        resolve_routes_loop token_network_address chain_state rest resolvable
      else
        partner_address ← list_getitem (metadata_route route_metadata) 1;
        match get_channelstate_by_token_network_and_partner
                chain_state token_network_address partner_address with
        | Some _ =>
            resolve_routes_loop token_network_address chain_state rest
              (resolvable ++
               [{| route := metadata_route route_metadata; estimated_fee := 0 |}])
        | None =>
            resolve_routes_loop token_network_address chain_state rest resolvable
        end
  end.

Definition resolve_routes (routes : list RouteMetadata)
    (token_network_address : TokenNetworkAddress)
    (chain_state : ChainState) : result (list RouteState) :=
  resolve_routes_loop token_network_address chain_state routes [].

End Routing.

(** ** Calls and the failure conditions of the specification *)

(** One call of [get_best_routes]: its collaborators and its arguments. *)
Record Call := {
  call_collaborators : Collaborators;
  call_chain_state : ChainState;
  call_token_network_address : TokenNetworkAddress;
  call_one_to_n_address : option OneToNAddress;
  call_from_address : InitiatorAddress;
  call_to_address : TargetAddress;
  call_amount : PaymentAmount;
  call_previous_address : option Address;
  call_pfs_config : option PFSConfig;
  call_privkey : PrivateKey
}.

Definition run_call (c : Call) : M Routes :=
  @get_best_routes (call_collaborators c)
    (call_chain_state c) (call_token_network_address c)
    (call_one_to_n_address c) (call_from_address c) (call_to_address c)
    (call_amount c) (call_previous_address c) (call_pfs_config c)
    (call_privkey c).

(** What the path-finding client answers to the query of a call, when
    the call is configured to ask and its token network exists. *)
Definition call_query_answer (c : Call)
    : option (result (list PathObject * option UUID)) :=
  match call_pfs_config c, call_one_to_n_address c with
  | Some pfs_config, Some one_to_n_address =>
      match @get_token_network_by_address (call_collaborators c)
              (call_chain_state c) (call_token_network_address c) with
      | Some token_network =>
          Some (@query_paths (call_collaborators c)
                  (query_paths_kwargs (call_chain_state c)
                     (call_token_network_address c) one_to_n_address
                     (call_from_address c) (call_to_address c) (call_amount c)
                     pfs_config (call_privkey c)
                     (latest_channel_opened_at token_network)))
      | None => None
      end
  | _, _ => None
  end.

(** The three failure conditions the specification tells apart, following
    its words: no path-finding configured, the request failed, the
    service answered and no route was found. *)
Inductive FailureCondition :=
| NoPathfindingConfigured
| PathfindingRequestFailed
| ServiceFoundNoRoutes.

Definition failure_condition (c : Call) : option FailureCondition :=
  match call_pfs_config c, call_one_to_n_address c with
  | Some _, Some _ =>
      match call_query_answer c with
      | Some (inl (ServiceRequestFailed _ _)) => Some PathfindingRequestFailed
      | Some (inr _) => Some ServiceFoundNoRoutes
      | _ => None
      end
  | _, _ => Some NoPathfindingConfigured
  end.

(** The message of the failed request of a call, if its request failed. *)
Definition request_failure_message (c : Call) : option string :=
  match call_query_answer c with
  | Some (inl (ServiceRequestFailed args0 _)) => Some args0
  | _ => None
  end.

(** ** What the two validators accept, candidate by candidate *)

Section Acceptance.
Context `{!Collaborators}.

(** Lines 146 and 148: the path of a candidate, converted node by
    node. *)
Definition canonical_path_of (path_object : PathObject) : result (list Address) :=
  path ← dict_getitem path_object "path";
  nodes ← py_iter path;
  mapM to_canonical_address nodes.

(** The route a path-finding candidate contributes, if any, once its
    entries have been read, its path converted and found to have a second
    address. *)
Definition pfs_candidate_route (chain_state : ChainState)
    (token_network_address : TokenNetworkAddress)
    (previous_address : option Address) (path_object : PathObject)
    : option RouteState :=
  match canonical_path_of path_object, path_object !! "estimated_fee" with
  | inr canonical_path, Some estimated_fee =>
      match canonical_path !! 1%nat with
      | Some partner_address =>
          if decide (Some partner_address = previous_address) then None
          else
            match get_channelstate_by_token_network_and_partner
                    chain_state token_network_address partner_address with
            | Some channel_state =>
                if decide (get_status channel_state ≠ STATE_OPENED) then None
                else Some {| route := canonical_path;
                             estimated_fee := estimated_fee |}
            | None => None
            end
      | None => None
      end
  | _, _ => None
  end.

(** Lines 146-152: what the loop reads of a candidate before it looks
    at the channels: its converted path, its fee and its second
    address. *)
Definition read_candidate (path_object : PathObject)
    : result (list Address * PyValue * Address) :=
  path ← dict_getitem path_object "path";
  estimated_fee ← dict_getitem path_object "estimated_fee";
  nodes ← py_iter path;
  canonical_path ← mapM to_canonical_address nodes;
  partner_address ← list_getitem canonical_path 1;
  mret (canonical_path, estimated_fee, partner_address).

(** A candidate the loop can read: it has a fee, and a path that
    converts node by node to a sequence with a second address. *)
Definition candidate_readable (path_object : PathObject) : Prop :=
  ∃ fee canonical_path partner,
    path_object !! "estimated_fee" = Some fee ∧
    canonical_path_of path_object = inr canonical_path ∧
    canonical_path !! 1%nat = Some partner.

(** The context of a failed request can be passed to the logger call of
    line 141: there is none, or it is a dictionary none of whose keys is
    [log_message] or a name the logger method binds itself. *)
Definition context_can_be_logged (args1 : option PyValue) : Prop :=
  args1 = None ∨
  ∃ items, args1 = Some (PyDict items) ∧
           ∀ k v, (k, v) ∈ items → k ≠ "log_message" ∧ logger_binds k = false.

(** The route a peer-supplied candidate contributes, if any. *)
Definition metadata_candidate_route (chain_state : ChainState)
    (token_network_address : TokenNetworkAddress)
    (route_metadata : RouteMetadata) : option RouteState :=
  match metadata_route route_metadata !! 1%nat with
  | Some partner_address =>
      match get_channelstate_by_token_network_and_partner
              chain_state token_network_address partner_address with
      | Some _ => Some {| route := metadata_route route_metadata; estimated_fee := 0 |}
      | None => None
      end
  | None => None
  end.

(** The triple returned for a direct channel (lines 64-68). *)
Definition direct_result (from_address to_address : Address) : Routes :=
  (None, [{| route := [from_address; to_address]; estimated_fee := 0 |}], None).

(** A channel identifier of the partner index that resolves to a
    channel which the usability predicate rejects. *)
Definition rejected (token_network : TokenNetworkState) (amount : PaymentAmount)
    (channel_id : ChannelID) : Prop :=
  ∃ c, channelidentifiers_to_channels token_network !! channel_id = Some c ∧
       is_channel_usable_for_new_transfer c amount None ≠ USABLE.

(** No channel to the payee is usable: every identifier recorded for
    the payee resolves to a channel that the predicate rejects. *)
Definition no_usable_direct_channel (tn : TokenNetworkState)
    (to : TargetAddress) (amount : PaymentAmount) : Prop :=
  ∀ ids, partneraddresses_to_channelidentifiers tn !! to = Some ids →
         ∀ id, id ∈ ids → rejected tn amount id.

End Acceptance.

(** ** Reading a trace *)

(** The keyword arguments of the path-finding queries recorded in a
    trace, in order. *)
Definition queries_of (t : list Event) : list QueryArgs :=
  omap (λ ev, match ev with
              | PathsQueried args => Some args
              | _ => None
              end) t.

(** ** A concrete node, used to run the code on explicit inputs *)

Module Scenario.

Definition addr (b : byte) : Address := replicate 20 b.

Definition payer : Address := addr x01.
Definition payee : Address := addr x02.
Definition hop_x : Address := addr x03.
Definition hop_y : Address := addr x04.
Definition network : TokenNetworkAddress := addr xee.
Definition one_to_n : OneToNAddress := addr xdd.
Definition key : PrivateKey := replicate 32 x07.

Definition channel (id : ChannelID) (partner : Address) (opened_at : BlockNumber)
    : NettingChannelState :=
  {| identifier := id;
     partner_address := partner;
     open_transaction := {| finished_block_number := opened_at |} |}.

(** Channel 1 to the payee, channel 2 to X, channel 3 to Y. *)
Definition token_network : TokenNetworkState :=
  {| partneraddresses_to_channelidentifiers :=
       <[payee := [1]]> (<[hop_x := [2]]> (<[hop_y := [3]]> ∅));
     channelidentifiers_to_channels :=
       <[1 := channel 1 payee 10]>
         (<[2 := channel 2 hop_x 25]> (<[3 := channel 3 hop_y 7]> ∅)) |}.

Definition chain : ChainState :=
  {| our_address := payer;
     block_number := 30;
     chain_id := 5;
     tokennetworkaddresses_to_tokennetworks := <[network := token_network]> ∅ |}.

Definition config : PFSConfig :=
  {| pfs_url := "https://pfs.example"; pfs_address := addr xcc; maximum_fee := 50 |}.

(** The textual addresses the conversion knows. *)
Definition address_book : list (string * Address) :=
  [("0x01", payer); ("0x02", payee); ("0x03", hop_x); ("0x04", hop_y)].

Definition canonical (node : PyValue) : result Address :=
  match node with
  | PyStr text =>
      match list_find (fun entry => entry.1 = text) address_book with
      | Some (_, (_, a)) => Ok a
      | None => Raise ValueError
      end
  | _ => Raise TypeError
  end.

Definition lookup_network (cs : ChainState) (tna : TokenNetworkAddress)
    : option TokenNetworkState :=
  tokennetworkaddresses_to_tokennetworks cs !! tna.

(** The last channel recorded for the partner. *)
Definition lookup_channel (cs : ChainState) (tna : TokenNetworkAddress)
    (partner : Address) : option NettingChannelState :=
  tn ← lookup_network cs tna;
  ids ← partneraddresses_to_channelidentifiers tn !! partner;
  id ← last ids;
  channelidentifiers_to_channels tn !! id.

(** A node whose channels in [usable] can carry any amount, whose
    channels in [closed] are closed, and whose path-finding client
    answers [answer] to every query. *)
Definition node (usable closed : list ChannelID)
    (answer : result (list PathObject * option UUID)) : Collaborators :=
  {| get_token_network_by_address := lookup_network;
     get_channelstate_by_token_network_and_partner := lookup_channel;
     is_channel_usable_for_new_transfer := fun c _ _ =>
       if decide (identifier c ∈ usable) then USABLE else NOT_OPENED;
     get_status := fun c =>
       if decide (identifier c ∈ closed) then STATE_CLOSED else STATE_OPENED;
     to_canonical_address := canonical;
     query_paths := fun _ => answer;
     logger_binds := fun name => bool_decide (name = "event") |}.

Definition call (E : Collaborators) (to : TargetAddress)
    (previous : option Address) (cfg : option PFSConfig) : Call :=
  {| call_collaborators := E;
     call_chain_state := chain;
     call_token_network_address := network;
     call_one_to_n_address := Some one_to_n;
     call_from_address := payer;
     call_to_address := to;
     call_amount := 100;
     call_previous_address := previous;
     call_pfs_config := cfg;
     call_privkey := key |}.

(** Answers of the path-finding client: one path through X with fee 5
    and one through Y with fee 2; and a path with a single node. *)
Definition entry (nodes : list string) (fee : Z) : PathObject :=
  <["path" := PyList (PyStr <$> nodes)]> (<["estimated_fee" := PyInt fee]> ∅).

Definition through_x : PathObject := entry ["0x01"; "0x03"; "0x02"] 5.
Definition through_y : PathObject := entry ["0x01"; "0x04"; "0x02"] 2.
Definition single_node : PathObject := entry ["0x01"] 0.

Definition answer_paths : result (list PathObject * option UUID) :=
  Ok ([through_x; through_y], Some 9%N).
Definition answer_nothing : result (list PathObject * option UUID) :=
  Ok ([], Some 9%N).
Definition answer_failed (message : string) : result (list PathObject * option UUID) :=
  Raise (ServiceRequestFailed message None).

(** Peer-supplied routes through Y, through X, and a route too short
    to have a next hop. *)
Definition metadata_y : RouteMetadata := {| metadata_route := [payer; hop_y; payee] |}.
Definition metadata_x : RouteMetadata := {| metadata_route := [payer; hop_x; payee] |}.
Definition metadata_short : RouteMetadata := {| metadata_route := [payer] |}.

(** A token network whose partner index names, for the payee, channel 1
    and then a channel 8 that the channel dictionary does not hold. *)
Definition dangling_network : TokenNetworkState :=
  {| partneraddresses_to_channelidentifiers := <[payee := [1; 8; 2]]> ∅;
     channelidentifiers_to_channels := channelidentifiers_to_channels token_network |}.

Definition dangling_chain : ChainState :=
  {| our_address := payer;
     block_number := 30;
     chain_id := 5;
     tokennetworkaddresses_to_tokennetworks := <[network := dangling_network]> ∅ |}.

(** The token network after a further channel, 4, opened at block 40. *)
Definition grown_network : TokenNetworkState :=
  {| partneraddresses_to_channelidentifiers :=
       partneraddresses_to_channelidentifiers token_network;
     channelidentifiers_to_channels :=
       <[4 := channel 4 hop_y 40]> (channelidentifiers_to_channels token_network) |}.

End Scenario.

(** * Properties *)

(** ** The trace monad *)

Lemma M_bind_unfold {A B} (f : A → M B) (m : M A) :
  m ≫= f =
  match m with
  | (t, inl e) => (t, inl e)
  | (t, inr x) => let '(t', r) := f x in (t ++ t', r)
  end.
Proof. reflexivity. Qed.

Lemma str_truthy_true s : str_truthy s = true ↔ s ≠ "".
Proof. destruct s; simpl; split; congruence. Qed.

(** The list comprehension over a conversion that may raise: it returns
    exactly when every element converts, element by element. *)
Lemma mapM_result_Forall2 {A B} (f : A → result B) (l : list A) (k : list B) :
  mapM f l = inr k ↔ Forall2 (λ x y, f x = inr y) l k.
Proof.
  revert k. induction l as [|x l IH]; intros k; simpl.
  - split.
    + intros [= <-]. constructor.
    + by intros ->%Forall2_nil_inv_l.
  - split.
    + destruct (f x) as [e|y] eqn:Hx; simpl; [done|].
      destruct (mapM f l) as [e|k'] eqn:Hl; simpl; [done|].
      intros [= <-]. constructor; [done|]. by apply IH.
    + intros (y & k' & Hx & Hl & ->)%Forall2_cons_inv_l.
      rewrite Hx. simpl. apply IH in Hl. rewrite Hl. done.
Qed.

(** ** Running maxima *)

Lemma foldl_max_lower {A} (f : A → Z) (l : list A) (a : Z) :
  a ≤ foldl (λ acc x, Z.max acc (f x)) a l.
Proof.
  revert a. induction l as [|x l IH]; intros a; simpl; [lia|].
  specialize (IH (Z.max a (f x))). lia.
Qed.

Lemma foldl_max_upper {A} (f : A → Z) (l : list A) (a : Z) x :
  x ∈ l → f x ≤ foldl (λ acc x, Z.max acc (f x)) a l.
Proof.
  revert a. induction l as [|y l IH]; intros a Hx; simpl.
  - by apply elem_of_nil in Hx.
  - apply elem_of_cons in Hx as [->|Hx]; [|by apply IH].
    pose proof (foldl_max_lower f l (Z.max a (f y))). lia.
Qed.

Lemma foldl_max_attained {A} (f : A → Z) (l : list A) (a : Z) :
  foldl (λ acc x, Z.max acc (f x)) a l = a ∨
  ∃ x, x ∈ l ∧ f x = foldl (λ acc x, Z.max acc (f x)) a l.
Proof.
  revert a. induction l as [|y l IH]; intros a; simpl; [by left|].
  destruct (IH (Z.max a (f y))) as [Heq|(x & Hx & Heq)].
  - rewrite Heq. destruct (Z.max_spec a (f y)) as [[_ ->]|[_ ->]].
    + right. exists y. split; [by left|done].
    + by left.
  - right. exists x. split; [by right|done].
Qed.

Section Facts.
Context `{!Collaborators}.

(** ** The direct-channel loop *)

Lemma direct_channel_loop_cons tn from to amount id rest :
  direct_channel_loop tn from to amount (id :: rest) =
  match channelidentifiers_to_channels tn !! id with
  | None => ([], Raise KeyError)
  | Some c =>
      if decide (is_channel_usable_for_new_transfer c amount None = USABLE)
      then ([UsabilityChecked id], Ok (Some (direct_result from to)))
      else (UsabilityChecked id :: (direct_channel_loop tn from to amount rest).1,
            (direct_channel_loop tn from to amount rest).2)
  end.
Proof.
  simpl. unfold dict_getitem.
  destruct (channelidentifiers_to_channels tn !! id) as [c|]; simpl; [|done].
  case_decide; [done|].
  by destruct (direct_channel_loop tn from to amount rest).
Qed.

Lemma direct_channel_loop_none tn from to amount ids :
  (∀ id, id ∈ ids → rejected tn amount id) →
  direct_channel_loop tn from to amount ids = (UsabilityChecked <$> ids, Ok None).
Proof.
  induction ids as [|id ids IH]; intros Hall; [done|].
  destruct (Hall id) as (c & Hc & Hu); [by left|].
  rewrite direct_channel_loop_cons, Hc, decide_False by done.
  rewrite IH; [done|]. intros id' Hid'. apply Hall. by right.
Qed.

Lemma direct_channel_loop_usable tn from to amount pre id post c :
  (∀ id', id' ∈ pre → rejected tn amount id') →
  channelidentifiers_to_channels tn !! id = Some c →
  is_channel_usable_for_new_transfer c amount None = USABLE →
  direct_channel_loop tn from to amount (pre ++ id :: post) =
    (UsabilityChecked <$> (pre ++ [id]), Ok (Some (direct_result from to))).
Proof.
  intros Hpre Hc Hu. induction pre as [|id' pre IH].
  - simpl app. by rewrite direct_channel_loop_cons, Hc, decide_True.
  - destruct (Hpre id') as (c' & Hc' & Hu'); [by left|].
    rewrite <- !app_comm_cons, direct_channel_loop_cons, Hc', decide_False by done.
    rewrite IH; [done|]. intros ??. apply Hpre. by right.
Qed.

Lemma first_usable_split tn amount ids :
  (∀ id, id ∈ ids → is_Some (channelidentifiers_to_channels tn !! id)) →
  (∃ id c, id ∈ ids ∧ channelidentifiers_to_channels tn !! id = Some c ∧
           is_channel_usable_for_new_transfer c amount None = USABLE) →
  ∃ pre id post c,
    ids = pre ++ id :: post ∧
    (∀ id', id' ∈ pre → rejected tn amount id') ∧
    channelidentifiers_to_channels tn !! id = Some c ∧
    is_channel_usable_for_new_transfer c amount None = USABLE.
Proof.
  induction ids as [|id0 ids IH]; intros Hwf (id & c & Hin & Hc & Hu).
  - by apply elem_of_nil in Hin.
  - destruct (Hwf id0) as [c0 Hc0]; [by left|].
    destruct (decide (is_channel_usable_for_new_transfer c0 amount None = USABLE))
      as [Hu0|Hu0].
    + exists [], id0, ids, c0. split_and!; try done.
      intros ? Hnil. by apply elem_of_nil in Hnil.
    + apply elem_of_cons in Hin as [->|Hin]; [congruence|].
      destruct IH as (pre & id1 & post & c1 & -> & Hpre & Hc1 & Hu1).
      * intros ??. apply Hwf. by right.
      * eauto.
      * exists (id0 :: pre), id1, post, c1. split_and!; try done.
        intros id' [->|?]%elem_of_cons; [by exists c0|by apply Hpre].
Qed.

Lemma direct_channel_loop_inv tn from to amount ids t r :
  direct_channel_loop tn from to amount ids = (t, r) →
  (∀ args, PathsQueried args ∉ t) ∧
  (∀ x, r = inr (Some x) → x = direct_result from to).
Proof.
  revert t r. induction ids as [|id ids IH]; intros t r.
  - intros [= <- <-]. split; [intros ? []%elem_of_nil|]. intros ? [=].
  - rewrite direct_channel_loop_cons.
    destruct (channelidentifiers_to_channels tn !! id) as [c|].
    + case_decide.
      * intros [= <- <-]. split.
        -- intros args [[=]|[]%elem_of_nil]%elem_of_cons.
        -- by intros ? [= <-].
      * destruct (direct_channel_loop tn from to amount ids) as [t' r'] eqn:Hloop.
        intros [= <- <-]. destruct (IH _ _ eq_refl) as [Hq Hr]. split; [|done].
        intros args [[=]|?]%elem_of_cons. by eapply Hq.
    + intros [= <- <-]. split; [intros ? []%elem_of_nil|]. intros ? [=].
Qed.

Lemma direct_channel_lookup_inv tn from to amount t r :
  direct_channel_lookup tn from to amount = (t, r) →
  (∀ args, PathsQueried args ∉ t) ∧
  (∀ x, r = inr (Some x) → x = direct_result from to).
Proof.
  unfold direct_channel_lookup.
  destruct (partneraddresses_to_channelidentifiers tn !! to).
  - apply direct_channel_loop_inv.
  - intros [= <- <-]. split; [intros ? []%elem_of_nil|]. intros ? [=].
Qed.

End Facts.

Section PathFinding.
Context `{!Collaborators}.

(** ** The loop over the answer of the path-finding service *)

Lemma read_candidate_inr po cp fee p :
  read_candidate po = inr (cp, fee, p) ↔
  po !! "estimated_fee" = Some fee ∧
  canonical_path_of po = inr cp ∧
  cp !! 1%nat = Some p.
Proof.
  unfold read_candidate, canonical_path_of, dict_getitem, list_getitem.
  destruct (po !! "path") as [path|]; simpl.
  2: { split; [done|]. by intros (_ & [=] & _). }
  destruct (po !! "estimated_fee") as [fee'|]; simpl.
  2: { split; [done|]. by intros ([=] & _). }
  destruct (py_iter path) as [e|nodes]; simpl.
  { split; [done|]. by intros (_ & [=] & _). }
  destruct (mapM to_canonical_address nodes) as [e|cp']; simpl.
  { split; [done|]. by intros (_ & [=] & _). }
  destruct (cp' !! 1%nat) as [p'|] eqn:Hp'; simpl.
  - split.
    + by intros [= <- <- <-].
    + intros ([= <-] & [= <-] & Hp). rewrite Hp' in Hp. by injection Hp as <-.
  - split; [done|]. intros (_ & [= <-] & Hp). congruence.
Qed.

Lemma read_candidate_readable po :
  (∃ x, read_candidate po = inr x) ↔ candidate_readable po.
Proof.
  unfold candidate_readable. split.
  - intros [[[cp fee] p] Hread]. apply read_candidate_inr in Hread. eauto.
  - intros (fee & cp & p & Hread). exists (cp, fee, p). by apply read_candidate_inr.
Qed.

Lemma pfs_paths_loop_cons cs tna prev po rest paths :
  pfs_paths_loop cs tna prev (po :: rest) paths =
  match read_candidate po with
  | inl e => ([], inl e)
  | inr (canonical_path, fee, partner) =>
      if decide (Some partner = prev) then pfs_paths_loop cs tna prev rest paths
      else
        match get_channelstate_by_token_network_and_partner cs tna partner with
        | None => pfs_paths_loop cs tna prev rest paths
        | Some c =>
            if decide (get_status c ≠ STATE_OPENED) then
              (Logged INFO "Channel is not opened, ignoring"
                 :: (pfs_paths_loop cs tna prev rest paths).1,
               (pfs_paths_loop cs tna prev rest paths).2)
            else
              pfs_paths_loop cs tna prev rest
                (paths ++ [{| route := canonical_path; estimated_fee := fee |}])
        end
  end.
Proof.
  simpl. unfold read_candidate, dict_getitem, list_getitem.
  destruct (po !! "path") as [path|]; simpl; [|done].
  destruct (po !! "estimated_fee") as [fee|]; simpl; [|done].
  destruct (py_iter path) as [e|nodes]; simpl; [done|].
  destruct (mapM to_canonical_address nodes) as [e|cp]; simpl; [done|].
  destruct (cp !! 1%nat) as [p|]; simpl; [|done].
  case_decide.
  { by destruct (pfs_paths_loop cs tna prev rest paths). }
  destruct (get_channelstate_by_token_network_and_partner cs tna p) as [c|].
  - case_decide; simpl.
    + by destruct (pfs_paths_loop cs tna prev rest paths).
    + by destruct (pfs_paths_loop cs tna prev rest _).
  - by destruct (pfs_paths_loop cs tna prev rest paths).
Qed.

Lemma pfs_candidate_route_read cs tna prev po :
  pfs_candidate_route cs tna prev po =
  match read_candidate po with
  | inl _ => None
  | inr (canonical_path, fee, partner) =>
      if decide (Some partner = prev) then None
      else
        match get_channelstate_by_token_network_and_partner cs tna partner with
        | Some c =>
            if decide (get_status c ≠ STATE_OPENED) then None
            else Some {| route := canonical_path; estimated_fee := fee |}
        | None => None
        end
  end.
Proof.
  unfold pfs_candidate_route, read_candidate, canonical_path_of,
    dict_getitem, list_getitem.
  destruct (po !! "path") as [path|]; simpl; [|done].
  destruct (po !! "estimated_fee") as [fee|]; simpl.
  - destruct (py_iter path) as [e|nodes]; simpl; [done|].
    destruct (mapM to_canonical_address nodes) as [e|cp]; simpl; [done|].
    by destruct (cp !! 1%nat) as [p|].
  - destruct (py_iter path) as [e|nodes]; simpl; [done|].
    by destruct (mapM to_canonical_address nodes) as [e|cp].
Qed.

(** The loop never queries the service, whatever its outcome. *)
Lemma pfs_paths_loop_trace cs tna prev cands paths args :
  PathsQueried args ∉ (pfs_paths_loop cs tna prev cands paths).1.
Proof.
  revert paths. induction cands as [|po rest IH]; intros paths.
  - simpl. apply not_elem_of_nil.
  - rewrite pfs_paths_loop_cons.
    destruct (read_candidate po) as [e|[[cp fee] p]]; [apply not_elem_of_nil|].
    case_decide; [apply IH|].
    destruct (get_channelstate_by_token_network_and_partner cs tna p) as [c|];
      [|apply IH].
    case_decide; [|apply IH].
    simpl. intros [[=]|?]%elem_of_cons. by eapply IH.
Qed.

(** When the loop returns, it has appended, in order, the routes of the
    accepted candidates, and every candidate could be read. *)
Lemma pfs_paths_loop_Ok cs tna prev cands paths t out :
  pfs_paths_loop cs tna prev cands paths = (t, inr out) →
  out = paths ++ omap (pfs_candidate_route cs tna prev) cands ∧
  ∀ po, po ∈ cands → candidate_readable po.
Proof.
  revert paths t out. induction cands as [|po rest IH]; intros paths t out.
  - simpl. intros [= <- <-]. rewrite app_nil_r. split; [done|].
    intros ? []%elem_of_nil.
  - rewrite pfs_paths_loop_cons.
    change (omap (pfs_candidate_route cs tna prev) (po :: rest))
      with (match pfs_candidate_route cs tna prev po with
            | Some r => r :: omap (pfs_candidate_route cs tna prev) rest
            | None => omap (pfs_candidate_route cs tna prev) rest
            end).
    rewrite pfs_candidate_route_read.
    destruct (read_candidate po) as [e|[[cp fee] p]] eqn:Hread; [discriminate|].
    assert (candidate_readable po) as Hpo.
    { apply read_candidate_readable. eauto. }
    assert (∀ t' out' paths',
              pfs_paths_loop cs tna prev rest paths' = (t', inr out') →
              out' = paths' ++ omap (pfs_candidate_route cs tna prev) rest ∧
              ∀ po', po' ∈ po :: rest → candidate_readable po') as Hrest.
    { intros t' out' paths' Hloop. destruct (IH _ _ _ Hloop) as [-> Hall].
      split; [done|]. intros po' [->|?]%elem_of_cons; eauto. }
    case_decide; [by eapply Hrest|].
    destruct (get_channelstate_by_token_network_and_partner cs tna p) as [c|];
      [|by eapply Hrest].
    case_decide.
    + destruct (pfs_paths_loop cs tna prev rest paths) as [t' r'] eqn:Hloop.
      simpl. intros [= <- ->]. by eapply Hrest.
    + intros Hloop. destruct (Hrest _ _ _ Hloop) as [-> Hall].
      split; [|done]. by rewrite <- app_assoc.
Qed.

(** ** [get_best_routes_pfs] *)

Lemma splat_keywords_inr fixed log_info kw :
  splat_keywords fixed log_info = inr kw ↔
  ∃ items, log_info = PyDict items ∧ kw = items ∧
           ∀ k v, (k, v) ∈ items → (k ∉ fixed) ∧ logger_binds k = false.
Proof.
  unfold splat_keywords.
  destruct log_info as [| | | | |items|items];
    try (split; [done|]; by intros (? & [=] & _)).
  destruct (existsb _ items) eqn:Hex.
  - split; [done|]. intros (items' & [= <-] & _ & Hall).
    apply existsb_exists in Hex as ([k v] & Hin & Hbad).
    apply list_elem_of_In in Hin. destruct (Hall k v Hin) as [Hfixed Hbinds].
    simpl in Hbad. rewrite Hbinds, orb_false_r in Hbad.
    by apply bool_decide_eq_true in Hbad.
  - split.
    + intros [= <-]. exists items. split_and!; try done.
      intros k v Hin.
      destruct (bool_decide (k ∈ fixed) || logger_binds k) eqn:Hbad.
      * assert (existsb (λ kv : string * PyValue,
                           bool_decide (kv.1 ∈ fixed) || logger_binds kv.1) items
                = true) as Htrue.
        { apply existsb_exists. exists (k, v). split; [|done].
          by apply list_elem_of_In. }
        congruence.
      * apply orb_false_elim in Hbad as [Hfixed Hbinds].
        by apply bool_decide_eq_false in Hfixed.
    + by intros (items' & [= <-] & -> & _).
Qed.

Lemma context_can_be_logged_splat args1 :
  context_can_be_logged args1 ↔
  ∃ kw, splat_keywords ["log_message"] (default (PyDict []) args1) = inr kw.
Proof.
  unfold context_can_be_logged. split.
  - intros [->|(items & -> & Hall)].
    + by exists [].
    + exists items. apply splat_keywords_inr. exists items. split_and!; try done.
      intros k v Hin. destruct (Hall k v Hin) as [Hk Hb]. split; [|done].
      by intros ->%list_elem_of_singleton.
  - intros [kw Hkw]. destruct args1 as [v|]; [|by left]. right.
    apply splat_keywords_inr in Hkw as (items & Hv & _ & Hall). simpl in Hv.
    exists items. split; [by rewrite Hv|].
    intros k v' Hin. destruct (Hall k v' Hin) as [Hk Hb]. split; [|done].
    intros ->. apply Hk. by apply list_elem_of_singleton.
Qed.

Lemma get_best_routes_pfs_unfold cs tna o2n from to amount prev cfg key w :
  get_best_routes_pfs cs tna o2n from to amount prev cfg key w =
  let kwargs := query_paths_kwargs cs tna o2n from to amount cfg key w in
  match query_paths kwargs with
  | inl (ServiceRequestFailed args0 args1) =>
      match splat_keywords ["log_message"] (default (PyDict []) args1) with
      | inl e => ([PathsQueried kwargs], inl e)
      | inr _ =>
          ([PathsQueried kwargs;
            Logged WARNING "An error with the path request occurred"],
           Ok (if str_truthy args0 then Some ("PFS: " +:+ args0) else None, [], None))
      end
  | inl e => ([PathsQueried kwargs], inl e)
  | inr (cands, token) =>
      (PathsQueried kwargs :: (pfs_paths_loop cs tna prev cands []).1,
       match (pfs_paths_loop cs tna prev cands []).2 with
       | inl e => inl e
       | inr paths => Ok (None, paths, token)
       end)
  end.
Proof.
  unfold get_best_routes_pfs. simpl.
  destruct (query_paths _) as [[]|[cands token]]; simpl; try done.
  - by destruct (splat_keywords _ _).
  - destruct (pfs_paths_loop cs tna prev cands []) as [t [e|paths]]; simpl; [done|].
    by rewrite app_nil_r.
Qed.

Lemma get_best_routes_pfs_trace cs tna o2n from to amount prev cfg key w args :
  PathsQueried args ∈ (get_best_routes_pfs cs tna o2n from to amount prev cfg key w).1 →
  args = query_paths_kwargs cs tna o2n from to amount cfg key w.
Proof.
  rewrite get_best_routes_pfs_unfold. simpl.
  destruct (query_paths _) as [[]|[cands token]]; simpl.
  1-5: by intros [[=]|[]%elem_of_nil]%elem_of_cons.
  - destruct (splat_keywords _ _); simpl.
    + by intros [[=]|[]%elem_of_nil]%elem_of_cons.
    + by intros [[=]|[[=]|[]%elem_of_nil]%elem_of_cons]%elem_of_cons.
  - intros [[=]|Hin]%elem_of_cons; [done|]. by apply pfs_paths_loop_trace in Hin.
Qed.

Lemma get_best_routes_pfs_inv cs tna o2n from to amount prev cfg key w t msg routes tok :
  get_best_routes_pfs cs tna o2n from to amount prev cfg key w
    = (t, inr (msg, routes, tok)) →
  (∃ args0 args1,
      query_paths (query_paths_kwargs cs tna o2n from to amount cfg key w)
        = inl (ServiceRequestFailed args0 args1) ∧
      msg = (if str_truthy args0 then Some ("PFS: " +:+ args0) else None) ∧
      routes = [] ∧ tok = None ∧ context_can_be_logged args1) ∨
  (∃ cands,
      query_paths (query_paths_kwargs cs tna o2n from to amount cfg key w)
        = inr (cands, tok) ∧
      msg = None ∧
      routes = omap (pfs_candidate_route cs tna prev) cands ∧
      ∀ po, po ∈ cands → candidate_readable po).
Proof.
  rewrite get_best_routes_pfs_unfold. simpl.
  destruct (query_paths _) as [[]|[cands token]] eqn:Hq; try discriminate.
  - destruct (splat_keywords _ _) as [e|kw] eqn:Hkw; [discriminate|].
    intros [= <- <- <- <-]. left. exists args0, args1. split_and!; try done.
    apply context_can_be_logged_splat. eauto.
  - destruct (pfs_paths_loop cs tna prev cands []) as [t' [e|paths]] eqn:Hloop;
      simpl; [discriminate|].
    intros [= <- <- <- <-]. right. exists cands.
    destruct (pfs_paths_loop_Ok _ _ _ _ _ _ _ Hloop) as [-> Hall]. done.
Qed.

(** The message of [get_best_routes_pfs] is [None] or a non-empty
    string. *)
Lemma get_best_routes_pfs_message cs tna o2n from to amount prev cfg key w t msg routes tok :
  get_best_routes_pfs cs tna o2n from to amount prev cfg key w
    = (t, inr (msg, routes, tok)) →
  opt_str_truthy msg = false → msg = None.
Proof.
  intros [(a0 & a1 & _ & -> & _)|(? & _ & -> & _)]%get_best_routes_pfs_inv; [|done].
  destruct (str_truthy a0); [|done]. discriminate.
Qed.

End PathFinding.

Section Orchestrator.
Context `{!Collaborators}.

(** ** [get_best_routes], branch by branch *)

Lemma get_best_routes_unfold cs tna o2n from to amount prev cfg key tn :
  get_token_network_by_address cs tna = Some tn →
  get_best_routes cs tna o2n from to amount prev cfg key =
  let d := direct_channel_lookup tn from to amount in
  match d.2 with
  | inl e => (d.1, inl e)
  | inr (Some returned) => (d.1, Ok returned)
  | inr None =>
      match cfg, o2n with
      | Some cfg, Some o2n =>
          let p := get_best_routes_pfs cs tna o2n from to amount prev cfg key
                     (latest_channel_opened_at tn) in
          match p.2 with
          | inl e => (d.1 ++ p.1, inl e)
          | inr (msg, routes, tok) =>
              if negb (opt_str_truthy msg) then
                if negb (list_truthy routes) then
                  (d.1 ++ p.1, Ok (Some "PFS could not find any routes", [], None))
                else
                  (d.1 ++ p.1 ++ [Logged INFO "Received route(s) from PFS"],
                   Ok (msg, routes, tok))
              else
                (d.1 ++ p.1 ++
                   [Logged WARNING
                      "Request to Pathfinding Service was not successful. No routes to the target were found."],
                 Ok (msg, [], None))
          end
      | _, _ =>
          (d.1 ++ [Logged WARNING "Pathfinding Service could not be used."],
           Ok (Some "Pathfinding Service could not be used.", [], None))
      end
  end.
Proof.
  intros Htn. unfold get_best_routes. rewrite Htn. rewrite M_bind_unfold.
  destruct (direct_channel_lookup tn from to amount) as [t0 [e|[returned|]]]; simpl.
  - done.
  - by rewrite app_nil_r.
  - destruct cfg as [cfg'|], o2n as [o2n'|]; simpl; try done.
    rewrite M_bind_unfold.
    destruct (get_best_routes_pfs _ _ _ _ _ _ _ _ _ _) as [t1 [e|[[msg routes] tok]]];
      simpl; [done|].
    destruct (opt_str_truthy msg); simpl; [done|].
    destruct (list_truthy routes); simpl; [done|].
    by rewrite app_nil_r.
Qed.

(** Without a token network the call stops at the assertion. *)
Lemma get_best_routes_no_network cs tna o2n from to amount prev cfg key :
  get_token_network_by_address cs tna = None →
  get_best_routes cs tna o2n from to amount prev cfg key =
    ([], inl (AssertionError "The token network must be validated and exist.")).
Proof. intros Htn. unfold get_best_routes. by rewrite Htn. Qed.

Lemma direct_channel_lookup_none tn from to amount :
  no_usable_direct_channel tn to amount →
  ∃ t0, direct_channel_lookup tn from to amount = (t0, Ok None) ∧
        ∀ args, PathsQueried args ∉ t0.
Proof.
  intros Hno. unfold direct_channel_lookup.
  destruct (partneraddresses_to_channelidentifiers tn !! to) as [ids|] eqn:Hids.
  - rewrite direct_channel_loop_none by eauto.
    eexists; split; [done|].
    intros args (? & [=] & _)%list_elem_of_fmap.
  - eexists; split; [done|]. intros ? []%elem_of_nil.
Qed.

(** The shape of every returned triple. *)
Lemma get_best_routes_inv cs tna o2n from to amount prev cfg key t msg routes tok :
  get_best_routes cs tna o2n from to amount prev cfg key = (t, inr (msg, routes, tok)) →
  (msg, routes, tok) = direct_result from to ∨
  (msg = Some "Pathfinding Service could not be used." ∧ routes = [] ∧ tok = None ∧
   (cfg = None ∨ o2n = None)) ∨
  ∃ tn cfg' o2n' t1 msg' routes' tok',
    get_token_network_by_address cs tna = Some tn ∧
    cfg = Some cfg' ∧ o2n = Some o2n' ∧
    get_best_routes_pfs cs tna o2n' from to amount prev cfg' key
      (latest_channel_opened_at tn) = (t1, inr (msg', routes', tok')) ∧
    ((msg' = None ∧ routes' = [] ∧
      msg = Some "PFS could not find any routes" ∧ routes = [] ∧ tok = None) ∨
     (msg' = None ∧ routes' ≠ [] ∧ msg = None ∧ routes = routes' ∧ tok = tok') ∨
     (opt_str_truthy msg' = true ∧ msg = msg' ∧ routes = [] ∧ tok = None)).
Proof.
  destruct (get_token_network_by_address cs tna) as [tn|] eqn:Htn;
    [|by rewrite get_best_routes_no_network].
  rewrite (get_best_routes_unfold _ _ _ _ _ _ _ _ _ _ Htn). simpl.
  destruct (direct_channel_lookup tn from to amount) as [t0 [e|[returned|]]] eqn:Hd;
    simpl; [discriminate| |].
  - intros [= <- ->]. left.
    destruct (direct_channel_lookup_inv _ _ _ _ _ _ Hd) as [_ Hr]. by apply Hr.
  - destruct cfg as [cfg'|]; [destruct o2n as [o2n'|]|].
    + destruct (get_best_routes_pfs _ _ _ _ _ _ _ _ _ _)
        as [t1 [e|[[msg' routes'] tok']]] eqn:Hp; simpl; [discriminate|].
      intros Heq. right; right. exists tn, cfg', o2n', t1, msg', routes', tok'.
      split_and!; try done.
      destruct (opt_str_truthy msg') eqn:Hm; simpl in Heq.
      * injection Heq as <- <- <- <-. by right; right.
      * pose proof (get_best_routes_pfs_message _ _ _ _ _ _ _ _ _ _ _ _ _ _ Hp Hm) as ->.
        destruct routes' as [|r rs]; simpl in Heq; injection Heq as <- <- <- <-.
        -- by left.
        -- by right; left.
    + intros [= <- <- <- <-]. right; left. split_and!; auto.
    + intros [= <- <- <- <-]. right; left. split_and!; auto.
Qed.

(** Every query recorded in the trace of a call carries the keyword
    arguments built from the arguments of the call and the latest
    opening block. *)
Lemma get_best_routes_queries cs tna o2n from to amount prev cfg key tn args :
  get_token_network_by_address cs tna = Some tn →
  PathsQueried args ∈ (get_best_routes cs tna o2n from to amount prev cfg key).1 →
  ∃ cfg' o2n', cfg = Some cfg' ∧ o2n = Some o2n' ∧
    args = query_paths_kwargs cs tna o2n' from to amount cfg' key
             (latest_channel_opened_at tn).
Proof.
  intros Htn. rewrite (get_best_routes_unfold _ _ _ _ _ _ _ _ _ _ Htn). simpl.
  destruct (direct_channel_lookup tn from to amount) as [t0 r0] eqn:Hd.
  destruct (direct_channel_lookup_inv _ _ _ _ _ _ Hd) as [Hq0 _]. simpl.
  destruct r0 as [e|[returned|]]; simpl; [by intros ?%Hq0..|].
  destruct cfg as [cfg'|]; [destruct o2n as [o2n'|]|]; simpl.
  - assert (∀ tail, (∀ a, PathsQueried a ∉ tail) →
      PathsQueried args ∈
        t0 ++ (get_best_routes_pfs cs tna o2n' from to amount prev cfg' key
                 (latest_channel_opened_at tn)).1 ++ tail →
      ∃ cfg'0 o2n'0, Some cfg' = Some cfg'0 ∧ Some o2n' = Some o2n'0 ∧
        args = query_paths_kwargs cs tna o2n'0 from to amount cfg'0 key
                 (latest_channel_opened_at tn)) as Hgen.
    { intros tail Htail [?%Hq0|[Hin|?%Htail]%elem_of_app]%elem_of_app; try done.
      apply get_best_routes_pfs_trace in Hin. eauto. }
    assert (∀ a, PathsQueried a ∉ @nil Event) as Hnil by (intros ? []%elem_of_nil).
    assert (∀ lvl s a, PathsQueried a ∉ [Logged lvl s]) as Hlog.
    { intros ??? [[=]|[]%elem_of_nil]%elem_of_cons. }
    destruct (get_best_routes_pfs _ _ _ _ _ _ _ _ _ _)
      as [t1 [e|[[msg' routes'] tok']]] eqn:Hp; simpl in *.
    + intros Hin. apply (Hgen [] Hnil). by rewrite app_nil_r.
    + destruct (opt_str_truthy msg'); simpl.
      * apply Hgen, Hlog.
      * destruct (list_truthy routes'); simpl; [apply Hgen, Hlog|].
        intros Hin. apply (Hgen [] Hnil). by rewrite app_nil_r.
  - intros [?%Hq0|[[=]|[]%elem_of_nil]%elem_of_cons]%elem_of_app. done.
  - intros [?%Hq0|[[=]|[]%elem_of_nil]%elem_of_cons]%elem_of_app. done.
Qed.

End Orchestrator.

Section Resolution.
Context `{!Collaborators}.

(** ** [resolve_routes] *)

Lemma short_route_no_second {A} (l : list A) :
  (length l <? 2)%nat = true ↔ l !! 1%nat = None.
Proof.
  rewrite Nat.ltb_lt, lookup_ge_None. lia.
Qed.

(** [resolve_routes] always returns: it appends, in order, the routes of
    the candidates that have a second address with a channel to it. *)
Lemma resolve_routes_loop_Ok tna cs metas resolvable :
  resolve_routes_loop tna cs metas resolvable =
    Ok (resolvable ++ omap (metadata_candidate_route cs tna) metas).
Proof.
  revert resolvable. induction metas as [|rm rest IH]; intros resolvable.
  - simpl. by rewrite app_nil_r.
  - simpl. unfold metadata_candidate_route at 1.
    destruct (length (metadata_route rm) <? 2)%nat eqn:Hlen.
    + apply short_route_no_second in Hlen. rewrite Hlen. apply IH.
    + unfold list_getitem.
      destruct (metadata_route rm !! 1%nat) as [p|] eqn:Hp.
      * simpl.
        destruct (get_channelstate_by_token_network_and_partner cs tna p).
        -- rewrite IH. by rewrite <- app_assoc.
        -- apply IH.
      * apply short_route_no_second in Hp. congruence.
Qed.

Lemma resolve_routes_Ok metas tna cs :
  resolve_routes metas tna cs = Ok (omap (metadata_candidate_route cs tna) metas).
Proof. unfold resolve_routes. by rewrite resolve_routes_loop_Ok. Qed.

Lemma metadata_candidate_route_Some cs tna rm r :
  metadata_candidate_route cs tna rm = Some r ↔
  ∃ p c, metadata_route rm !! 1%nat = Some p ∧
         get_channelstate_by_token_network_and_partner cs tna p = Some c ∧
         r = {| route := metadata_route rm; estimated_fee := 0 |}.
Proof.
  unfold metadata_candidate_route. split.
  - destruct (metadata_route rm !! 1%nat) as [p|]; [|done].
    destruct (get_channelstate_by_token_network_and_partner cs tna p) as [c|] eqn:Hc;
      [|done].
    intros [= <-]. by exists p, c.
  - intros (p & c & -> & -> & ->). done.
Qed.

Lemma pfs_candidate_route_Some cs tna prev po r :
  pfs_candidate_route cs tna prev po = Some r ↔
  ∃ p c, canonical_path_of po = inr (route r) ∧
         route r !! 1%nat = Some p ∧
         Some p ≠ prev ∧
         get_channelstate_by_token_network_and_partner cs tna p = Some c ∧
         get_status c = STATE_OPENED ∧
         po !! "estimated_fee" = Some (estimated_fee r).
Proof.
  unfold pfs_candidate_route. split.
  - destruct (canonical_path_of po) as [e|cp]; [done|].
    destruct (po !! "estimated_fee") as [fee|]; [|done].
    destruct (cp !! 1%nat) as [p|] eqn:Hp; [|done].
    case_decide; [done|].
    destruct (get_channelstate_by_token_network_and_partner cs tna p) as [c|] eqn:Hc;
      [|done].
    case_decide as Hst; [done|]. intros [= <-]. simpl.
    exists p, c. split_and!; try done.
  - intros (p & c & -> & -> & Hprev & -> & Hst & ->).
    rewrite decide_False by done. rewrite decide_False by (by rewrite Hst; intros []).
    by destruct r.
Qed.

Lemma canonical_path_of_inr po cp :
  canonical_path_of po = inr cp ↔
  ∃ path nodes,
    po !! "path" = Some path ∧
    py_iter path = inr nodes ∧
    Forall2 (λ node a, to_canonical_address node = inr a) nodes cp.
Proof.
  unfold canonical_path_of, dict_getitem.
  destruct (po !! "path") as [path|]; simpl.
  2: { split; [done|]. by intros (? & ? & [=] & _). }
  destruct (py_iter path) as [e|nodes] eqn:Hiter; simpl.
  { split; [done|]. intros (? & ? & [= <-] & Hit & _). congruence. }
  rewrite mapM_result_Forall2. split.
  - intros Hall. by exists path, nodes.
  - intros (? & ? & [= <-] & Hit & Hall). rewrite Hiter in Hit.
    by injection Hit as <-.
Qed.

End Resolution.

(** In the concrete node, when no channel is usable, the channel to the
    payee is looked at and rejected. *)
Lemma scenario_no_usable_direct_channel closed answer :
  @no_usable_direct_channel (Scenario.node [] closed answer)
    Scenario.token_network Scenario.payee 100.
Proof.
  intros ids Hids id Hin.
  assert (ids = [1]) as -> by (vm_compute in Hids; congruence).
  apply list_elem_of_singleton in Hin as ->.
  exists (Scenario.channel 1 Scenario.payee 10). split; [reflexivity|].
  vm_compute. discriminate.
Qed.

(** ** The scenarios of the specification, run on the concrete node *)

Example scenario_A :
  (run_call (Scenario.call (Scenario.node [1] [] Scenario.answer_paths)
               Scenario.payee None (Some Scenario.config))).2
    = Ok (None,
          [{| route := [Scenario.payer; Scenario.payee]; estimated_fee := 0 |}],
          None).
Proof. reflexivity. Qed.

Example scenario_B :
  (run_call (Scenario.call
               (Scenario.node [] [] (Ok ([Scenario.through_x], Some 9%N)))
               Scenario.payee None (Some Scenario.config))).2
    = Ok (None,
          [{| route := [Scenario.payer; Scenario.hop_x; Scenario.payee];
              estimated_fee := 5 |}],
          Some 9%N).
Proof. reflexivity. Qed.

Example scenario_C :
  (run_call (Scenario.call (Scenario.node [] [] (Scenario.answer_failed "timeout"))
               Scenario.payee None (Some Scenario.config))).2
    = Ok (Some "PFS: timeout", [], None).
Proof. reflexivity. Qed.

Example scenario_D :
  (run_call (Scenario.call (Scenario.node [] [] Scenario.answer_nothing)
               Scenario.payee None (Some Scenario.config))).2
    = Ok (Some "PFS could not find any routes", [], None).
Proof. reflexivity. Qed.

Example scenario_E :
  (run_call (Scenario.call (Scenario.node [] [] Scenario.answer_paths)
               Scenario.payee None None)).2
    = Ok (Some "Pathfinding Service could not be used.", [], None).
Proof. reflexivity. Qed.

(** * The claims *)

(** ** C1 *)

(** C1. When the partner index of the token network holds a channel to
    the payee that the usability predicate accepts for the full amount,
    [get_best_routes] returns [(None, [route [payer; payee] with fee 0],
    None)], whatever the path-finding configuration: the usability checks
    stop at the first usable channel (the channels recorded before it were
    checked and rejected, the ones after it are not looked at) and no
    path-finding query is issued.
    The identifiers of the partner index are assumed to resolve (the
    invariant of the token network). *)
Theorem direct_channel_short_circuits `{!Collaborators}
    cs tna o2n from to amount prev cfg key tn ids :
  get_token_network_by_address cs tna = Some tn →
  partneraddresses_to_channelidentifiers tn !! to = Some ids →
  (∀ id, id ∈ ids → is_Some (channelidentifiers_to_channels tn !! id)) →
  (∃ id c, id ∈ ids ∧ channelidentifiers_to_channels tn !! id = Some c ∧
           is_channel_usable_for_new_transfer c amount None = USABLE) →
  ∃ pre id post,
    ids = pre ++ id :: post ∧
    (∀ id', id' ∈ pre → rejected tn amount id') ∧
    (∃ c, channelidentifiers_to_channels tn !! id = Some c ∧
          is_channel_usable_for_new_transfer c amount None = USABLE) ∧
    get_best_routes cs tna o2n from to amount prev cfg key =
      (UsabilityChecked <$> (pre ++ [id]),
       Ok (None, [{| route := [from; to]; estimated_fee := 0 |}], None)) ∧
    ∀ args, PathsQueried args ∉
      (get_best_routes cs tna o2n from to amount prev cfg key).1.
Proof.
  intros Htn Hids Hwf Hex.
  destruct (first_usable_split tn amount ids Hwf Hex)
    as (pre & id & post & c & -> & Hpre & Hc & Hu).
  exists pre, id, post. split; [done|]. split; [done|]. split; [by exists c|].
  assert (get_best_routes cs tna o2n from to amount prev cfg key =
          (UsabilityChecked <$> (pre ++ [id]), Ok (direct_result from to))) as Hrun.
  { rewrite (get_best_routes_unfold _ _ _ _ _ _ _ _ _ _ Htn).
    unfold direct_channel_lookup. rewrite Hids.
    by rewrite (direct_channel_loop_usable _ _ _ _ _ _ _ c). }
  split; [exact Hrun|].
  rewrite Hrun. simpl. intros args (? & [=] & _)%list_elem_of_fmap.
Qed.

Lemma direct_channel_short_circuits_witness :
  ∃ pre id post,
    [1] = pre ++ id :: post ∧
    (∀ id', id' ∈ pre →
       @rejected (Scenario.node [1] [] (Ok ([], None)))
         Scenario.token_network 100 id') ∧
    (∃ c, channelidentifiers_to_channels Scenario.token_network !! id = Some c ∧
          @is_channel_usable_for_new_transfer (Scenario.node [1] [] (Ok ([], None)))
            c 100 None = USABLE) ∧
    @get_best_routes (Scenario.node [1] [] (Ok ([], None)))
      Scenario.chain Scenario.network (Some Scenario.one_to_n)
      Scenario.payer Scenario.payee 100 None (Some Scenario.config) Scenario.key =
      (UsabilityChecked <$> (pre ++ [id]),
       Ok (None, [{| route := [Scenario.payer; Scenario.payee];
                     estimated_fee := 0 |}], None)) ∧
    ∀ args, PathsQueried args ∉
      (@get_best_routes (Scenario.node [1] [] (Ok ([], None)))
         Scenario.chain Scenario.network (Some Scenario.one_to_n)
         Scenario.payer Scenario.payee 100 None (Some Scenario.config)
         Scenario.key).1.
Proof.
  apply (@direct_channel_short_circuits (Scenario.node [1] [] (Ok ([], None)))
           Scenario.chain Scenario.network (Some Scenario.one_to_n)
           Scenario.payer Scenario.payee 100 None (Some Scenario.config)
           Scenario.key Scenario.token_network [1]).
  - reflexivity.
  - reflexivity.
  - intros id ->%list_elem_of_singleton. eexists. reflexivity.
  - exists 1, (Scenario.channel 1 Scenario.payee 10).
    split; [apply list_elem_of_singleton; reflexivity|].
    split; reflexivity.
Defined.

(** ** C2 *)

(** C2, as stated, fails for [resolve_routes]: a peer-supplied candidate
    whose next hop has a channel that is closed is resolved all the
    same. *)
Lemma resolve_routes_keeps_closed_channel :
  @get_channelstate_by_token_network_and_partner
     (Scenario.node [] [3] Scenario.answer_nothing)
     Scenario.chain Scenario.network Scenario.hop_y
    = Some (Scenario.channel 3 Scenario.hop_y 7) ∧
  @get_status (Scenario.node [] [3] Scenario.answer_nothing)
     (Scenario.channel 3 Scenario.hop_y 7) = STATE_CLOSED ∧
  @resolve_routes (Scenario.node [] [3] Scenario.answer_nothing)
     [Scenario.metadata_y] Scenario.network Scenario.chain
    = Ok [{| route := [Scenario.payer; Scenario.hop_y; Scenario.payee];
             estimated_fee := 0 |}].
Proof. split_and!; reflexivity. Qed.

(** C2, amended. Every route returned by [get_best_routes_pfs] has a
    second address to which the token network holds a channel whose status
    is opened: candidates without such a channel, or with a channel that
    is not opened, are discarded. [resolve_routes] discards a candidate
    when no channel to its second address exists, and keeps every
    candidate that has one, whatever the status of the channel. *)
Theorem validators_check_next_hop_channel `{!Collaborators}
    cs tna o2n from to amount prev cfg key w t msg routes tok metas out :
  get_best_routes_pfs cs tna o2n from to amount prev cfg key w
    = (t, inr (msg, routes, tok)) →
  resolve_routes metas tna cs = Ok out →
  (∀ r, r ∈ routes →
     ∃ p c, route r !! 1%nat = Some p ∧
            get_channelstate_by_token_network_and_partner cs tna p = Some c ∧
            get_status c = STATE_OPENED) ∧
  (∀ r, r ∈ out →
     ∃ p c, route r !! 1%nat = Some p ∧
            get_channelstate_by_token_network_and_partner cs tna p = Some c) ∧
  (∀ rm p c, rm ∈ metas →
     metadata_route rm !! 1%nat = Some p →
     get_channelstate_by_token_network_and_partner cs tna p = Some c →
     {| route := metadata_route rm; estimated_fee := 0 |} ∈ out).
Proof.
  intros Hpfs Hres. rewrite resolve_routes_Ok in Hres. injection Hres as <-.
  split_and!.
  - intros r Hr.
    apply get_best_routes_pfs_inv in Hpfs
      as [(_ & _ & _ & _ & -> & _)|(cands & _ & _ & -> & _)].
    + by apply elem_of_nil in Hr.
    + apply list_elem_of_omap in Hr as (po & _ & Hpo).
      apply pfs_candidate_route_Some in Hpo as (p & c & _ & Hp & _ & Hc & Hst & _).
      eauto.
  - intros r (rm & _ & Hrm)%list_elem_of_omap.
    apply metadata_candidate_route_Some in Hrm as (p & c & Hp & Hc & ->). eauto.
  - intros rm p c Hin Hp Hc. apply list_elem_of_omap. exists rm. split; [done|].
    apply metadata_candidate_route_Some. eauto.
Qed.

Lemma validators_check_next_hop_channel_witness :
  let E := Scenario.node [] [3] Scenario.answer_paths in
  let via_x := {| route := [Scenario.payer; Scenario.hop_x; Scenario.payee];
                  estimated_fee := 5 |} in
  let via_y := {| route := [Scenario.payer; Scenario.hop_y; Scenario.payee];
                  estimated_fee := 0 |} in
  (∀ r, r ∈ [via_x] →
     ∃ p c, route r !! 1%nat = Some p ∧
            @get_channelstate_by_token_network_and_partner E
              Scenario.chain Scenario.network p = Some c ∧
            @get_status E c = STATE_OPENED) ∧
  (∀ r, r ∈ [via_y] →
     ∃ p c, route r !! 1%nat = Some p ∧
            @get_channelstate_by_token_network_and_partner E
              Scenario.chain Scenario.network p = Some c) ∧
  (∀ rm p c, rm ∈ [Scenario.metadata_y; Scenario.metadata_short] →
     metadata_route rm !! 1%nat = Some p →
     @get_channelstate_by_token_network_and_partner E
       Scenario.chain Scenario.network p = Some c →
     {| route := metadata_route rm; estimated_fee := 0 |} ∈ [via_y]).
Proof.
  intros E via_x via_y.
  apply (@validators_check_next_hop_channel E
           Scenario.chain Scenario.network Scenario.one_to_n
           Scenario.payer Scenario.payee 100 None Scenario.config Scenario.key 25
           [PathsQueried
              (query_paths_kwargs Scenario.chain Scenario.network Scenario.one_to_n
                 Scenario.payer Scenario.payee 100 Scenario.config Scenario.key 25);
            Logged INFO "Channel is not opened, ignoring"]
           None [via_x] (Some 9%N)
           [Scenario.metadata_y; Scenario.metadata_short] [via_y]).
  - reflexivity.
  - reflexivity.
Defined.

(** ** C7 *)

(** C7. A candidate returned by the path-finding service whose second
    canonical address is the previous address is not in the route list of
    [get_best_routes_pfs]: no returned route has the previous address as
    its second address. [resolve_routes] has no such exclusion: a
    peer-supplied candidate whose second address is that same address is
    kept as soon as a channel to it exists. *)
Theorem no_backtrack_only_for_pfs `{!Collaborators}
    cs tna o2n from to amount previous cfg key w t msg routes tok metas out :
  get_best_routes_pfs cs tna o2n from to amount (Some previous) cfg key w
    = (t, inr (msg, routes, tok)) →
  resolve_routes metas tna cs = Ok out →
  (∀ r, r ∈ routes → route r !! 1%nat ≠ Some previous) ∧
  (∀ cands tok' po canonical_path,
     query_paths (query_paths_kwargs cs tna o2n from to amount cfg key w)
       = inr (cands, tok') →
     po ∈ cands →
     canonical_path_of po = inr canonical_path →
     canonical_path !! 1%nat = Some previous →
     ∀ r, r ∈ routes → route r ≠ canonical_path) ∧
  (∀ rm c, rm ∈ metas →
     metadata_route rm !! 1%nat = Some previous →
     get_channelstate_by_token_network_and_partner cs tna previous = Some c →
     {| route := metadata_route rm; estimated_fee := 0 |} ∈ out).
Proof.
  intros Hpfs Hres. rewrite resolve_routes_Ok in Hres. injection Hres as <-.
  assert (∀ r, r ∈ routes → route r !! 1%nat ≠ Some previous) as Hno.
  { intros r Hr.
    apply get_best_routes_pfs_inv in Hpfs
      as [(_ & _ & _ & _ & -> & _)|(cands & _ & _ & -> & _)].
    - by apply elem_of_nil in Hr.
    - apply list_elem_of_omap in Hr as (po & _ & Hpo).
      apply pfs_candidate_route_Some in Hpo as (p & c & _ & Hp & Hprev & _).
      rewrite Hp. congruence. }
  split_and!; [done| |].
  - intros cands tok' po cp _ _ _ Hsecond r Hr Heq.
    apply (Hno r Hr). by rewrite Heq.
  - intros rm c Hin Hp Hc. apply list_elem_of_omap. exists rm. split; [done|].
    apply metadata_candidate_route_Some. eauto.
Qed.

Lemma no_backtrack_only_for_pfs_witness :
  let E := Scenario.node [] [] Scenario.answer_paths in
  let via_y := {| route := [Scenario.payer; Scenario.hop_y; Scenario.payee];
                  estimated_fee := 2 |} in
  let via_x0 := {| route := [Scenario.payer; Scenario.hop_x; Scenario.payee];
                   estimated_fee := 0 |} in
  (∀ r, r ∈ [via_y] → route r !! 1%nat ≠ Some Scenario.hop_x) ∧
  (∀ cands tok' po canonical_path,
     @query_paths E
       (query_paths_kwargs Scenario.chain Scenario.network Scenario.one_to_n
          Scenario.payer Scenario.payee 100 Scenario.config Scenario.key 25)
       = inr (cands, tok') →
     po ∈ cands →
     @canonical_path_of E po = inr canonical_path →
     canonical_path !! 1%nat = Some Scenario.hop_x →
     ∀ r, r ∈ [via_y] → route r ≠ canonical_path) ∧
  (∀ rm c, rm ∈ [Scenario.metadata_x] →
     metadata_route rm !! 1%nat = Some Scenario.hop_x →
     @get_channelstate_by_token_network_and_partner E
       Scenario.chain Scenario.network Scenario.hop_x = Some c →
     {| route := metadata_route rm; estimated_fee := 0 |} ∈ [via_x0]).
Proof.
  intros E via_y via_x0.
  apply (@no_backtrack_only_for_pfs E
           Scenario.chain Scenario.network Scenario.one_to_n
           Scenario.payer Scenario.payee 100 Scenario.hop_x Scenario.config
           Scenario.key 25
           [PathsQueried
              (query_paths_kwargs Scenario.chain Scenario.network Scenario.one_to_n
                 Scenario.payer Scenario.payee 100 Scenario.config Scenario.key 25)]
           None [via_y] (Some 9%N) [Scenario.metadata_x] [via_x0]).
  - reflexivity.
  - reflexivity.
Defined.

(** ** C8 *)

(** C8. Every route returned by [get_best_routes_pfs] stems from a
    candidate of the service's answer: it carries that candidate's
    estimated fee (the value under ["estimated_fee"], as it is) and its
    address sequence is the candidate's whole path, node by node in
    canonical form. Every route returned by
    [resolve_routes] carries fee 0 and the address sequence of a
    peer-supplied candidate, as it was given. *)
Theorem route_fee_and_path_from_candidate `{!Collaborators}
    cs tna o2n from to amount prev cfg key w t msg routes tok metas out :
  get_best_routes_pfs cs tna o2n from to amount prev cfg key w
    = (t, inr (msg, routes, tok)) →
  resolve_routes metas tna cs = Ok out →
  (∀ r, r ∈ routes →
     ∃ cands po,
       query_paths (query_paths_kwargs cs tna o2n from to amount cfg key w)
         = inr (cands, tok) ∧
       po ∈ cands ∧
       po !! "estimated_fee" = Some (estimated_fee r) ∧
       ∃ path nodes,
         po !! "path" = Some path ∧
         py_iter path = inr nodes ∧
         Forall2 (λ node a, to_canonical_address node = inr a) nodes (route r)) ∧
  (∀ r, r ∈ out →
     estimated_fee r = 0 ∧ ∃ rm, rm ∈ metas ∧ route r = metadata_route rm).
Proof.
  intros Hpfs Hres. rewrite resolve_routes_Ok in Hres. injection Hres as <-.
  split.
  - intros r Hr.
    apply get_best_routes_pfs_inv in Hpfs
      as [(_ & _ & _ & _ & -> & _)|(cands & Hq & _ & -> & _)].
    + by apply elem_of_nil in Hr.
    + apply list_elem_of_omap in Hr as (po & Hin & Hpo).
      apply pfs_candidate_route_Some in Hpo as (p & c & Hcp & _ & _ & _ & _ & Hfee).
      exists cands, po. split_and!; try done. by apply canonical_path_of_inr.
  - intros r (rm & Hin & Hrm)%list_elem_of_omap.
    apply metadata_candidate_route_Some in Hrm as (p & c & _ & _ & ->). eauto.
Qed.

Lemma route_fee_and_path_from_candidate_witness :
  let E := Scenario.node [] [3] Scenario.answer_paths in
  let via_x := {| route := [Scenario.payer; Scenario.hop_x; Scenario.payee];
                  estimated_fee := 5 |} in
  let via_y := {| route := [Scenario.payer; Scenario.hop_y; Scenario.payee];
                  estimated_fee := 0 |} in
  (∀ r, r ∈ [via_x] →
     ∃ cands po,
       @query_paths E
         (query_paths_kwargs Scenario.chain Scenario.network Scenario.one_to_n
            Scenario.payer Scenario.payee 100 Scenario.config Scenario.key 25)
         = inr (cands, Some 9%N) ∧
       po ∈ cands ∧
       po !! "estimated_fee" = Some (estimated_fee r) ∧
       ∃ path nodes,
         po !! "path" = Some path ∧
         py_iter path = inr nodes ∧
         Forall2 (λ node a, @to_canonical_address E node = inr a) nodes (route r)) ∧
  (∀ r, r ∈ [via_y] →
     estimated_fee r = 0 ∧
     ∃ rm, rm ∈ [Scenario.metadata_y; Scenario.metadata_short] ∧
           route r = metadata_route rm).
Proof.
  intros E via_x via_y.
  apply (@route_fee_and_path_from_candidate E
           Scenario.chain Scenario.network Scenario.one_to_n
           Scenario.payer Scenario.payee 100 None Scenario.config Scenario.key 25
           [PathsQueried
              (query_paths_kwargs Scenario.chain Scenario.network Scenario.one_to_n
                 Scenario.payer Scenario.payee 100 Scenario.config Scenario.key 25);
            Logged INFO "Channel is not opened, ignoring"]
           None [via_x] (Some 9%N)
           [Scenario.metadata_y; Scenario.metadata_short] [via_y]).
  - reflexivity.
  - reflexivity.
Defined.

(** ** C3 *)

(** C3, as stated, fails for the empty message: the failure is reported
    with the message of an answer without routes, not with ["PFS: "]
    followed by the message. *)
Lemma empty_failure_message_not_prefixed :
  (run_call (Scenario.call (Scenario.node [] [] (Scenario.answer_failed ""))
               Scenario.payee None (Some Scenario.config))).2
    = Ok (Some "PFS could not find any routes", [], None) ∧
  (run_call (Scenario.call (Scenario.node [] [] (Scenario.answer_failed ""))
               Scenario.payee None (Some Scenario.config))).2
    ≠ Ok (Some ("PFS: " +:+ ""), [], None).
Proof. split; [reflexivity|]. vm_compute. intros [=]. Qed.

(** C3, amended. When no direct channel is usable, the path-finding
    service is configured and the query raises [ServiceRequestFailed] with
    message [m] and a context that the logger call of the handler accepts,
    [get_best_routes] returns a triple with an empty route list and no
    feedback token; its message is ["PFS: "] followed by [m] when [m] is
    not empty, and ["PFS could not find any routes"] when [m] is empty. *)
Theorem request_failure_becomes_message `{!Collaborators}
    cs tna o2n from to amount prev cfg key tn m info :
  get_token_network_by_address cs tna = Some tn →
  no_usable_direct_channel tn to amount →
  query_paths (query_paths_kwargs cs tna o2n from to amount cfg key
                 (latest_channel_opened_at tn))
    = inl (ServiceRequestFailed m info) →
  context_can_be_logged info →
  ∃ t msg,
    get_best_routes cs tna (Some o2n) from to amount prev (Some cfg) key
      = (t, Ok (msg, [], None)) ∧
    (m ≠ "" → msg = Some ("PFS: " +:+ m)) ∧
    (m = "" → msg = Some "PFS could not find any routes").
Proof.
  intros Htn Hno Hq [kw Hkw]%context_can_be_logged_splat.
  destruct (direct_channel_lookup_none tn from to amount Hno) as (t0 & Hd & _).
  rewrite (get_best_routes_unfold _ _ _ _ _ _ _ _ _ _ Htn).
  rewrite Hd. simpl. rewrite get_best_routes_pfs_unfold. simpl. rewrite Hq, Hkw. simpl.
  destruct m as [|a m']; simpl.
  - do 2 eexists. split; [reflexivity|]. split; [done|]. done.
  - do 2 eexists. split; [reflexivity|]. split; [done|]. done.
Qed.

Lemma request_failure_becomes_message_witness :
  ∃ t msg,
    @get_best_routes
      (Scenario.node [] []
         (Raise (ServiceRequestFailed "timeout"
                   (Some (PyDict [("status_code", PyInt 504)])))))
      Scenario.chain Scenario.network (Some Scenario.one_to_n)
      Scenario.payer Scenario.payee 100 None (Some Scenario.config) Scenario.key
      = (t, Ok (msg, [], None)) ∧
    ("timeout" ≠ "" → msg = Some ("PFS: " +:+ "timeout")) ∧
    ("timeout" = "" → msg = Some "PFS could not find any routes").
Proof.
  apply (@request_failure_becomes_message
           (Scenario.node [] []
              (Raise (ServiceRequestFailed "timeout"
                        (Some (PyDict [("status_code", PyInt 504)])))))
           Scenario.chain Scenario.network Scenario.one_to_n
           Scenario.payer Scenario.payee 100 None Scenario.config Scenario.key
           Scenario.token_network "timeout"
           (Some (PyDict [("status_code", PyInt 504)]))).
  - reflexivity.
  - apply scenario_no_usable_direct_channel.
  - reflexivity.
  - right. exists [("status_code", PyInt 504)]. split; [reflexivity|].
    intros k v Hin. apply list_elem_of_singleton in Hin. injection Hin as -> _.
    split; [discriminate|reflexivity].
Defined.

(** The message of a call that ends without routes, by failure
    condition, when a failed request carries a non-empty message. *)
Lemma failure_message_of_condition c t m tok k :
  run_call c = (t, Ok (m, [], tok)) →
  failure_condition c = Some k →
  request_failure_message c ≠ Some "" →
  match k with
  | NoPathfindingConfigured => m = Some "Pathfinding Service could not be used."
  | PathfindingRequestFailed => ∃ a, m = Some ("PFS: " +:+ a)
  | ServiceFoundNoRoutes => m = Some "PFS could not find any routes"
  end.
Proof.
  unfold run_call, failure_condition, request_failure_message, call_query_answer.
  intros Hrun. apply get_best_routes_inv in Hrun
    as [Hdirect|[(-> & _ & _ & Hmissing)|
        (tn & cfg' & o2n' & t1 & msg' & routes' & tok' & Htn & Hcfg & Ho2n & Hp & Hcases)]].
  - discriminate.
  - destruct Hmissing as [->| ->]; [|destruct (call_pfs_config c)]; by intros [= <-].
  - rewrite Hcfg, Ho2n, Htn.
    apply get_best_routes_pfs_inv in Hp
      as [(a0 & a1 & -> & -> & -> & -> & _)|(cands & -> & -> & -> & _)].
    + intros [= <-] Hne. assert (a0 ≠ "") as Hne' by congruence.
      apply str_truthy_true in Hne'. rewrite Hne' in Hcases.
      destruct Hcases as [([=] & _)|[([=] & _)|(_ & -> & _)]]. eauto.
    + intros [= <-] _.
      destruct Hcases as [(_ & _ & -> & _)|[(_ & Hne & _ & Heq & _)|([=] & _)]];
        [done|by destruct Hne].
Qed.

Lemma request_failed_condition c m :
  request_failure_message c = Some m →
  failure_condition c = Some PathfindingRequestFailed.
Proof.
  unfold request_failure_message, failure_condition, call_query_answer.
  destruct (call_pfs_config c); [|done].
  destruct (call_one_to_n_address c); [|done].
  destruct (get_token_network_by_address _ _); [|done].
  by destruct (query_paths _) as [[]|].
Qed.

(** ** C4 *)

(** C4, as stated, fails in its last part: a request that failed with an
    empty message returns the very triple of a request that succeeded
    with zero paths, so the two are not told apart. *)
Lemma zero_paths_same_as_unnamed_failure :
  call_query_answer
    (Scenario.call (Scenario.node [] [] (Scenario.answer_failed ""))
       Scenario.payee None (Some Scenario.config))
    = Some (inl (ServiceRequestFailed "" None)) ∧
  call_query_answer
    (Scenario.call (Scenario.node [] [] Scenario.answer_nothing)
       Scenario.payee None (Some Scenario.config))
    = Some (inr ([], Some 9%N)) ∧
  (run_call (Scenario.call (Scenario.node [] [] (Scenario.answer_failed ""))
               Scenario.payee None (Some Scenario.config))).2
    = (run_call (Scenario.call (Scenario.node [] [] Scenario.answer_nothing)
                   Scenario.payee None (Some Scenario.config))).2.
Proof. split_and!; reflexivity. Qed.

(** C4, amended. When no direct channel is usable, the path-finding
    service is configured and the query returns zero paths,
    [get_best_routes] returns the message ["PFS could not find any
    routes"] with an empty route list and no feedback token, whatever
    token the service sent; and no call whose request failed with a
    non-empty message returns that triple. *)
Theorem zero_paths_reported_apart_from_named_failures `{!Collaborators}
    cs tna o2n from to amount prev cfg key tn tok :
  get_token_network_by_address cs tna = Some tn →
  no_usable_direct_channel tn to amount →
  query_paths (query_paths_kwargs cs tna o2n from to amount cfg key
                 (latest_channel_opened_at tn))
    = inr ([], tok) →
  (∃ t,
     get_best_routes cs tna (Some o2n) from to amount prev (Some cfg) key
       = (t, Ok (Some "PFS could not find any routes", [], None))) ∧
  (∀ (failed : Call) t' returned m,
     request_failure_message failed = Some m →
     m ≠ "" →
     run_call failed = (t', Ok returned) →
     returned ≠ (Some "PFS could not find any routes", [], None)).
Proof.
  intros Htn Hno Hq. split.
  - destruct (direct_channel_lookup_none tn from to amount Hno) as (t0 & Hd & _).
    rewrite (get_best_routes_unfold _ _ _ _ _ _ _ _ _ _ Htn).
    rewrite Hd. simpl. rewrite get_best_routes_pfs_unfold. simpl. rewrite Hq. simpl.
    eexists. reflexivity.
  - intros failed t' returned m Hm Hne Hrun ->.
    pose proof (request_failed_condition _ _ Hm) as Hk.
    assert (request_failure_message failed ≠ Some "") as Hne' by congruence.
    destruct (failure_message_of_condition _ _ _ _ _ Hrun Hk Hne') as [a [=]].
Qed.

Lemma zero_paths_reported_apart_from_named_failures_witness :
  (∃ t,
     @get_best_routes (Scenario.node [] [] Scenario.answer_nothing)
       Scenario.chain Scenario.network (Some Scenario.one_to_n)
       Scenario.payer Scenario.payee 100 None (Some Scenario.config) Scenario.key
       = (t, Ok (Some "PFS could not find any routes", [], None))) ∧
  (Some "PFS: timeout", @nil RouteState, @None UUID)
    ≠ (Some "PFS could not find any routes", [], None).
Proof.
  destruct (@zero_paths_reported_apart_from_named_failures
              (Scenario.node [] [] Scenario.answer_nothing)
              Scenario.chain Scenario.network Scenario.one_to_n
              Scenario.payer Scenario.payee 100 None Scenario.config Scenario.key
              Scenario.token_network (Some 9%N))
    as [Hreturns Hapart].
  - reflexivity.
  - apply scenario_no_usable_direct_channel.
  - reflexivity.
  - split; [exact Hreturns|].
    apply (Hapart
             (Scenario.call (Scenario.node [] [] (Scenario.answer_failed "timeout"))
                Scenario.payee None (Some Scenario.config))
             (run_call
                (Scenario.call (Scenario.node [] [] (Scenario.answer_failed "timeout"))
                   Scenario.payee None (Some Scenario.config))).1
             (Some "PFS: timeout", [], None) "timeout").
    + reflexivity.
    + discriminate.
    + reflexivity.
Defined.

(** ** C5 *)

(** C5, as stated, fails: a request that failed with an empty message and
    a request that succeeded with no paths are different failure
    conditions and receive the same message. *)
Lemma failure_messages_collide :
  failure_condition
    (Scenario.call (Scenario.node [] [] (Scenario.answer_failed ""))
       Scenario.payee None (Some Scenario.config))
    = Some PathfindingRequestFailed ∧
  failure_condition
    (Scenario.call (Scenario.node [] [] Scenario.answer_nothing)
       Scenario.payee None (Some Scenario.config))
    = Some ServiceFoundNoRoutes ∧
  (run_call (Scenario.call (Scenario.node [] [] (Scenario.answer_failed ""))
               Scenario.payee None (Some Scenario.config))).2
    = Ok (Some "PFS could not find any routes", [], None) ∧
  (run_call (Scenario.call (Scenario.node [] [] Scenario.answer_nothing)
               Scenario.payee None (Some Scenario.config))).2
    = Ok (Some "PFS could not find any routes", [], None).
Proof. split_and!; reflexivity. Qed.

(** C5, amended. Among calls whose failed request, if any, carries a
    non-empty message: two calls that end with an empty route list under
    different failure conditions (no path-finding configured, request
    failed, service answered without a route) never receive the same
    message. *)
Theorem failure_messages_distinguish_conditions
    c1 c2 t1 t2 m1 m2 tok1 tok2 k1 k2 :
  run_call c1 = (t1, Ok (m1, [], tok1)) →
  run_call c2 = (t2, Ok (m2, [], tok2)) →
  failure_condition c1 = Some k1 →
  failure_condition c2 = Some k2 →
  request_failure_message c1 ≠ Some "" →
  request_failure_message c2 ≠ Some "" →
  k1 ≠ k2 →
  m1 ≠ m2.
Proof.
  intros Hrun1 Hrun2 Hk1 Hk2 Hne1 Hne2 Hdiff.
  pose proof (failure_message_of_condition _ _ _ _ _ Hrun1 Hk1 Hne1) as H1.
  pose proof (failure_message_of_condition _ _ _ _ _ Hrun2 Hk2 Hne2) as H2.
  destruct k1, k2; try done;
    repeat match goal with
           | H : ∃ _, _ |- _ => destruct H as [? ->]
           | H : _ = Some _ |- _ => rewrite H; clear H
           end;
    simpl; intros [=].
Qed.

Lemma failure_messages_distinguish_conditions_witness :
  Some "PFS: timeout" ≠ Some "PFS could not find any routes".
Proof.
  apply (failure_messages_distinguish_conditions
           (Scenario.call (Scenario.node [] [] (Scenario.answer_failed "timeout"))
              Scenario.payee None (Some Scenario.config))
           (Scenario.call (Scenario.node [] [] Scenario.answer_nothing)
              Scenario.payee None (Some Scenario.config))
           (run_call (Scenario.call (Scenario.node [] [] (Scenario.answer_failed "timeout"))
                        Scenario.payee None (Some Scenario.config))).1
           (run_call (Scenario.call (Scenario.node [] [] Scenario.answer_nothing)
                        Scenario.payee None (Some Scenario.config))).1
           (Some "PFS: timeout") (Some "PFS could not find any routes")
           None None PathfindingRequestFailed ServiceFoundNoRoutes).
  - reflexivity.
  - reflexivity.
  - reflexivity.
  - reflexivity.
  - vm_compute. discriminate.
  - vm_compute. discriminate.
  - discriminate.
Defined.

(** ** C9 *)

(** The running maximum of lines 70-74 is the largest opening block of
    the token network, and 0 when it has no channel. *)
Lemma latest_channel_opened_at_max (tn : TokenNetworkState) :
  (∀ id c, channelidentifiers_to_channels tn !! id = Some c →
           0 ≤ finished_block_number (open_transaction c)) →
  (∀ id c, channelidentifiers_to_channels tn !! id = Some c →
           finished_block_number (open_transaction c) ≤ latest_channel_opened_at tn) ∧
  (channelidentifiers_to_channels tn ≠ ∅ →
   ∃ id c, channelidentifiers_to_channels tn !! id = Some c ∧
           finished_block_number (open_transaction c) = latest_channel_opened_at tn) ∧
  (channelidentifiers_to_channels tn = ∅ → latest_channel_opened_at tn = 0).
Proof.
  intros Hnonneg. unfold latest_channel_opened_at.
  set (f := λ c : NettingChannelState, finished_block_number (open_transaction c)).
  set (l := (map_to_list (channelidentifiers_to_channels tn)).*2).
  assert (∀ c, c ∈ l ↔ ∃ id, channelidentifiers_to_channels tn !! id = Some c) as Hl.
  { intros c. unfold l. rewrite list_elem_of_fmap. split.
    - intros ([id c'] & -> & Hin). exists id. by apply elem_of_map_to_list.
    - intros [id Hid]. exists (id, c). split; [done|]. by apply elem_of_map_to_list. }
  assert (∀ id c, channelidentifiers_to_channels tn !! id = Some c →
                  f c ≤ foldl (λ acc x, Z.max acc (f x)) 0 l) as Hupper.
  { intros id c Hc. apply foldl_max_upper. apply Hl. eauto. }
  split_and!.
  - exact Hupper.
  - intros Hne. destruct (foldl_max_attained f l 0) as [Hzero|(c & Hc & Heq)].
    + apply map_choose in Hne as (id & c & Hc). exists id, c. split; [done|].
      specialize (Hupper id c Hc). specialize (Hnonneg id c Hc). fold (f c) in Hnonneg.
      change (f c = foldl (λ acc x, Z.max acc (f x)) 0 l). lia.
    + apply Hl in Hc as [id Hid]. by exists id, c.
  - intros Hempty. unfold l. rewrite Hempty, map_to_list_empty. done.
Qed.

(** When no direct channel is usable and the service is configured, the
    query is issued, with the latest opening block. *)
Lemma get_best_routes_issues_query `{!Collaborators}
    cs tna o2n from to amount prev cfg key tn :
  get_token_network_by_address cs tna = Some tn →
  no_usable_direct_channel tn to amount →
  PathsQueried (query_paths_kwargs cs tna o2n from to amount cfg key
                  (latest_channel_opened_at tn))
    ∈ (get_best_routes cs tna (Some o2n) from to amount prev (Some cfg) key).1.
Proof.
  intros Htn Hno.
  destruct (direct_channel_lookup_none tn from to amount Hno) as (t0 & Hd & _).
  rewrite (get_best_routes_unfold _ _ _ _ _ _ _ _ _ _ Htn). rewrite Hd. simpl.
  assert (PathsQueried (query_paths_kwargs cs tna o2n from to amount cfg key
                          (latest_channel_opened_at tn))
          ∈ (get_best_routes_pfs cs tna o2n from to amount prev cfg key
               (latest_channel_opened_at tn)).1) as Hin.
  { rewrite get_best_routes_pfs_unfold. simpl.
    destruct (query_paths _) as [[]|[cands token]]; simpl; try by left.
    destruct (splat_keywords _ _); by left. }
  destruct (get_best_routes_pfs _ _ _ _ _ _ _ _ _ _) as [t1 [e|[[msg routes] tok]]];
    simpl in *.
  - rewrite elem_of_app. by right.
  - destruct (opt_str_truthy msg); simpl; [|destruct (list_truthy routes); simpl];
      rewrite !elem_of_app; auto.
Qed.

(** C9. Every path-finding query that [get_best_routes] issues carries,
    as [pfs_wait_for_block], the maximum over all channels of the token
    network of the block at which the opening transaction finished, and 0
    when the token network has no channel (block numbers are not
    negative). *)
Theorem pfs_wait_for_block_is_latest_opening `{!Collaborators}
    cs tna o2n from to amount prev cfg key tn args :
  get_token_network_by_address cs tna = Some tn →
  (∀ id c, channelidentifiers_to_channels tn !! id = Some c →
           0 ≤ finished_block_number (open_transaction c)) →
  PathsQueried args ∈ (get_best_routes cs tna o2n from to amount prev cfg key).1 →
  (∀ id c, channelidentifiers_to_channels tn !! id = Some c →
           finished_block_number (open_transaction c) ≤ q_pfs_wait_for_block args) ∧
  (channelidentifiers_to_channels tn ≠ ∅ →
   ∃ id c, channelidentifiers_to_channels tn !! id = Some c ∧
           finished_block_number (open_transaction c) = q_pfs_wait_for_block args) ∧
  (channelidentifiers_to_channels tn = ∅ → q_pfs_wait_for_block args = 0).
Proof.
  intros Htn Hnonneg Hin.
  destruct (get_best_routes_queries _ _ _ _ _ _ _ _ _ _ _ Htn Hin)
    as (cfg' & o2n' & _ & _ & ->).
  simpl. by apply latest_channel_opened_at_max.
Qed.

Lemma pfs_wait_for_block_is_latest_opening_witness :
  let tn := Scenario.token_network in
  (∀ id c, channelidentifiers_to_channels tn !! id = Some c →
           finished_block_number (open_transaction c) ≤ 25) ∧
  (channelidentifiers_to_channels tn ≠ ∅ →
   ∃ id c, channelidentifiers_to_channels tn !! id = Some c ∧
           finished_block_number (open_transaction c) = 25) ∧
  (channelidentifiers_to_channels tn = ∅ → 25 = 0).
Proof.
  apply (@pfs_wait_for_block_is_latest_opening
           (Scenario.node [] [] Scenario.answer_paths)
           Scenario.chain Scenario.network (Some Scenario.one_to_n)
           Scenario.payer Scenario.payee 100 None (Some Scenario.config)
           Scenario.key Scenario.token_network
           (query_paths_kwargs Scenario.chain Scenario.network Scenario.one_to_n
              Scenario.payer Scenario.payee 100 Scenario.config Scenario.key 25)).
  - reflexivity.
  - intros id c Hc.
    assert (id = 1 ∨ id = 2 ∨ id = 3) as Hid.
    { destruct (decide (id = 1)) as [|H1]; [by left|].
      destruct (decide (id = 2)) as [|H2]; [by right; left|].
      destruct (decide (id = 3)) as [|H3]; [by right; right|].
      unfold Scenario.token_network in Hc. simpl in Hc.
      rewrite !lookup_insert_ne, lookup_empty in Hc by done. discriminate. }
    destruct Hid as [->|[->| ->]]; vm_compute in Hc; injection Hc as <-;
      vm_compute; discriminate.
  - apply (@get_best_routes_issues_query
             (Scenario.node [] [] Scenario.answer_paths)
             Scenario.chain Scenario.network Scenario.one_to_n
             Scenario.payer Scenario.payee 100 None Scenario.config
             Scenario.key Scenario.token_network).
    + reflexivity.
    + apply scenario_no_usable_direct_channel.
Defined.

(** ** C10 *)

(** C10. In every triple returned by [get_best_routes]: a message comes
    with an empty route list and without a feedback token; a feedback
    token comes without a message and with a non-empty route list; and a
    return from the direct-channel loop carries no feedback token. *)
Theorem result_components_are_linked `{!Collaborators}
    cs tna o2n from to amount prev cfg key t msg routes tok :
  get_best_routes cs tna o2n from to amount prev cfg key = (t, inr (msg, routes, tok)) →
  (msg ≠ None → routes = [] ∧ tok = None) ∧
  (tok ≠ None → msg = None ∧ routes ≠ []) ∧
  (∀ tn t0 returned,
     get_token_network_by_address cs tna = Some tn →
     direct_channel_lookup tn from to amount = (t0, inr (Some returned)) →
     tok = None).
Proof.
  intros Hrun. split_and!.
  - apply get_best_routes_inv in Hrun
      as [[= -> -> ->]|[(-> & -> & -> & _)|
          (tn & cfg' & o2n' & t1 & msg' & routes' & tok' & _ & _ & _ & _ & Hcases)]].
    + done.
    + done.
    + destruct Hcases as [(_ & _ & _ & -> & ->)|[(_ & _ & -> & _)|(_ & _ & -> & ->)]];
        done.
  - apply get_best_routes_inv in Hrun
      as [[= -> -> ->]|[(-> & -> & -> & _)|
          (tn & cfg' & o2n' & t1 & msg' & routes' & tok' & _ & _ & _ & _ & Hcases)]].
    + done.
    + done.
    + destruct Hcases
        as [(_ & _ & _ & _ & ->)|[(_ & Hne & -> & -> & _)|(_ & _ & _ & ->)]]; done.
  - intros tn t0 returned Htn Hd.
    rewrite (get_best_routes_unfold _ _ _ _ _ _ _ _ _ _ Htn) in Hrun.
    rewrite Hd in Hrun. simpl in Hrun. injection Hrun as _ ->.
    destruct (direct_channel_lookup_inv _ _ _ _ _ _ Hd) as [_ Hr].
    specialize (Hr _ eq_refl). by injection Hr as _ _ ->.
Qed.

Lemma result_components_are_linked_witness :
  let via_x := {| route := [Scenario.payer; Scenario.hop_x; Scenario.payee];
                  estimated_fee := 5 |} in
  (@None string ≠ None → [via_x] = [] ∧ Some 9%N = None) ∧
  (Some 9%N ≠ None → @None string = None ∧ [via_x] ≠ []) ∧
  (∀ tn t0 returned,
     @get_token_network_by_address (Scenario.node [] [3] Scenario.answer_paths)
       Scenario.chain Scenario.network = Some tn →
     @direct_channel_lookup (Scenario.node [] [3] Scenario.answer_paths)
       tn Scenario.payer Scenario.payee 100 = (t0, inr (Some returned)) →
     Some 9%N = None).
Proof.
  intros via_x.
  apply (@result_components_are_linked
           (Scenario.node [] [3] Scenario.answer_paths)
           Scenario.chain Scenario.network (Some Scenario.one_to_n)
           Scenario.payer Scenario.payee 100 None (Some Scenario.config)
           Scenario.key
           (run_call (Scenario.call (Scenario.node [] [3] Scenario.answer_paths)
                        Scenario.payee None (Some Scenario.config))).1
           None [via_x] (Some 9%N)).
  reflexivity.
Defined.

(** ** C6 *)

(** [resolve_routes] skips a candidate without a second address and
    returns. *)
Lemma resolve_routes_skips_short `{!Collaborators} metas tna cs :
  ∃ out, resolve_routes metas tna cs = Ok out ∧
         ∀ r, r ∈ out → (2 ≤ length (route r))%nat.
Proof.
  rewrite resolve_routes_Ok. eexists. split; [done|].
  intros r (rm & _ & Hrm)%list_elem_of_omap.
  apply metadata_candidate_route_Some in Hrm as (p & c & Hp & _ & ->). simpl.
  apply lookup_lt_Some in Hp. lia.
Qed.

(** [get_best_routes_pfs] does not return when the answer of the service
    holds a path without a second node. *)
Lemma get_best_routes_pfs_short_path `{!Collaborators}
    cs tna o2n from to amount prev cfg key w cands tok po path nodes :
  query_paths (query_paths_kwargs cs tna o2n from to amount cfg key w)
    = inr (cands, tok) →
  po ∈ cands →
  po !! "path" = Some path →
  py_iter path = inr nodes →
  (length nodes < 2)%nat →
  ∃ e, (get_best_routes_pfs cs tna o2n from to amount prev cfg key w).2 = inl e.
Proof.
  intros Hq Hin Hpath Hnodes Hlen.
  destruct (get_best_routes_pfs cs tna o2n from to amount prev cfg key w)
    as [t [e|[[msg routes] tok']]] eqn:Hrun; [by exists e|].
  apply get_best_routes_pfs_inv in Hrun
    as [(a0 & a1 & Hq' & _)|(cands' & Hq' & _ & _ & Hall)]; [congruence|].
  assert (cands' = cands) as -> by congruence.
  destruct (Hall po Hin) as (fee & cp & p & _ & Hcp & Hp).
  apply canonical_path_of_inr in Hcp as (path' & nodes' & Hpath' & Hnodes' & Hconv).
  assert (path' = path) as -> by congruence.
  assert (nodes' = nodes) as -> by congruence.
  apply Forall2_length in Hconv. apply lookup_lt_Some in Hp. lia.
Qed.

(** C6. On a path with a single node returned by the path-finding
    service, [get_best_routes_pfs], and [get_best_routes] with it, end
    with [IndexError] instead of discarding the candidate, while
    [resolve_routes] discards a peer-supplied route of that length and
    returns. *)
Theorem short_pfs_path_raises_IndexError :
  (@get_best_routes_pfs
     (Scenario.node [] [] (Ok ([Scenario.single_node], Some 9%N)))
     Scenario.chain Scenario.network Scenario.one_to_n
     Scenario.payer Scenario.payee 100 None Scenario.config Scenario.key 25).2
    = inl IndexError ∧
  (run_call
     (Scenario.call (Scenario.node [] [] (Ok ([Scenario.single_node], Some 9%N)))
        Scenario.payee None (Some Scenario.config))).2
    = inl IndexError ∧
  @resolve_routes (Scenario.node [] [] (Ok ([Scenario.single_node], Some 9%N)))
    [Scenario.metadata_short] Scenario.network Scenario.chain = Ok [].
Proof. split_and!; reflexivity. Qed.

(** * Further properties of the routing code *)

(** ** The orchestrator without path-finding, and its failures *)

(** Without a path-finding configuration or without a one-to-N address,
    a call that finds no usable direct channel returns the fixed message
    with an empty route list and no feedback token, and asks nothing of
    the path-finding service (lines 76, 108-109). *)
Theorem no_pathfinding_configured `{!Collaborators}
    cs tna o2n from to amount prev cfg key tn :
  get_token_network_by_address cs tna = Some tn →
  no_usable_direct_channel tn to amount →
  cfg = None ∨ o2n = None →
  ∃ t,
    get_best_routes cs tna o2n from to amount prev cfg key
      = (t, Ok (Some "Pathfinding Service could not be used.", [], None)) ∧
    queries_of t = [].
Proof.
  intros Htn Hno Hmissing.
  destruct (direct_channel_lookup_none tn from to amount Hno) as (t0 & Hd & Hq0).
  assert (queries_of t0 = []) as Hnone.
  { unfold queries_of. clear Hd. induction t0 as [|ev t0 IH]; [done|].
    simpl. destruct ev as [id|args|lvl s].
    - apply IH. intros a Ha. apply (Hq0 a). by right.
    - exfalso. apply (Hq0 args). by left.
    - apply IH. intros a Ha. apply (Hq0 a). by right. }
  rewrite (get_best_routes_unfold _ _ _ _ _ _ _ _ _ _ Htn). rewrite Hd. simpl.
  assert (queries_of (t0 ++ [Logged WARNING "Pathfinding Service could not be used."])
          = []) as Htrace.
  { unfold queries_of in *. by rewrite omap_app, Hnone. }
  destruct Hmissing as [->| ->]; [|destruct cfg]; eexists; split; done.
Qed.

Lemma no_pathfinding_configured_witness :
  ∃ t,
    @get_best_routes (Scenario.node [] [] Scenario.answer_paths)
      Scenario.chain Scenario.network None
      Scenario.payer Scenario.payee 100 None (Some Scenario.config) Scenario.key
      = (t, Ok (Some "Pathfinding Service could not be used.", [], None)) ∧
    queries_of t = [].
Proof.
  apply (@no_pathfinding_configured (Scenario.node [] [] Scenario.answer_paths)
           Scenario.chain Scenario.network None
           Scenario.payer Scenario.payee 100 None (Some Scenario.config)
           Scenario.key Scenario.token_network).
  - reflexivity.
  - apply scenario_no_usable_direct_channel.
  - right. reflexivity.
Defined.

(** A channel identifier of the payee's partner index that the channel
    dictionary does not hold ends the call with [KeyError] as soon as the
    loop reaches it: after the channels recorded before it were checked
    and rejected, before any later channel is looked at and whatever the
    path-finding configuration (lines 52-55). *)
Theorem dangling_channel_identifier_raises_KeyError `{!Collaborators}
    cs tna o2n from to amount prev cfg key tn pre id post :
  get_token_network_by_address cs tna = Some tn →
  partneraddresses_to_channelidentifiers tn !! to = Some (pre ++ id :: post) →
  (∀ id', id' ∈ pre → rejected tn amount id') →
  channelidentifiers_to_channels tn !! id = None →
  get_best_routes cs tna o2n from to amount prev cfg key
    = (UsabilityChecked <$> pre, inl KeyError).
Proof.
  intros Htn Hids Hpre Hid.
  rewrite (get_best_routes_unfold _ _ _ _ _ _ _ _ _ _ Htn).
  unfold direct_channel_lookup. rewrite Hids.
  assert (direct_channel_loop tn from to amount (pre ++ id :: post)
          = (UsabilityChecked <$> pre, inl KeyError)) as ->; [|done].
  clear Hids. induction pre as [|id' pre IH].
  - simpl app. by rewrite direct_channel_loop_cons, Hid.
  - destruct (Hpre id') as (c' & Hc' & Hu'); [by left|].
    rewrite <- app_comm_cons, direct_channel_loop_cons, Hc', decide_False by done.
    rewrite IH; [done|]. intros ??. apply Hpre. by right.
Qed.

Lemma dangling_channel_identifier_raises_KeyError_witness :
  @get_best_routes (Scenario.node [2] [] Scenario.answer_paths)
    Scenario.dangling_chain Scenario.network (Some Scenario.one_to_n)
    Scenario.payer Scenario.payee 100 None (Some Scenario.config) Scenario.key
    = (UsabilityChecked <$> [1], inl KeyError).
Proof.
  apply (@dangling_channel_identifier_raises_KeyError
           (Scenario.node [2] [] Scenario.answer_paths)
           Scenario.dangling_chain Scenario.network (Some Scenario.one_to_n)
           Scenario.payer Scenario.payee 100 None (Some Scenario.config)
           Scenario.key Scenario.dangling_network [1] 8 [2]).
  - reflexivity.
  - reflexivity.
  - intros id' ->%list_elem_of_singleton.
    exists (Scenario.channel 1 Scenario.payee 10). split; [reflexivity|].
    vm_compute. discriminate.
  - reflexivity.
Defined.

(** An exception of the path-finding client other than
    [ServiceRequestFailed] is not turned into a message: it leaves
    [get_best_routes] as it was raised (lines 124-138). *)
Theorem other_query_exceptions_propagate `{!Collaborators}
    cs tna o2n from to amount prev cfg key tn e :
  get_token_network_by_address cs tna = Some tn →
  no_usable_direct_channel tn to amount →
  query_paths (query_paths_kwargs cs tna o2n from to amount cfg key
                 (latest_channel_opened_at tn)) = inl e →
  (∀ args0 args1, e ≠ ServiceRequestFailed args0 args1) →
  (get_best_routes cs tna (Some o2n) from to amount prev (Some cfg) key).2 = inl e.
Proof.
  intros Htn Hno Hq Hother.
  destruct (direct_channel_lookup_none tn from to amount Hno) as (t0 & Hd & _).
  rewrite (get_best_routes_unfold _ _ _ _ _ _ _ _ _ _ Htn). rewrite Hd. simpl.
  rewrite get_best_routes_pfs_unfold. simpl. rewrite Hq.
  destruct e; simpl; try done. by destruct (Hother args0 args1).
Qed.

Lemma other_query_exceptions_propagate_witness :
  (@get_best_routes (Scenario.node [] [] (Raise ValueError))
     Scenario.chain Scenario.network (Some Scenario.one_to_n)
     Scenario.payer Scenario.payee 100 None (Some Scenario.config) Scenario.key).2
    = inl ValueError.
Proof.
  apply (@other_query_exceptions_propagate (Scenario.node [] [] (Raise ValueError))
           Scenario.chain Scenario.network Scenario.one_to_n
           Scenario.payer Scenario.payee 100 None Scenario.config Scenario.key
           Scenario.token_network ValueError).
  - reflexivity.
  - apply scenario_no_usable_direct_channel.
  - reflexivity.
  - discriminate.
Defined.

(** ** The validation of the path-finding answer *)

Lemma mapM_result_returns {A B} (f : A → result B) (l : list A) :
  (∃ k, mapM f l = inr k) ↔ ∀ x, x ∈ l → ∃ y, f x = inr y.
Proof.
  induction l as [|x l IH]; simpl.
  - split; [intros _ ? []%elem_of_nil|]. intros _. by eexists.
  - split.
    + intros [k Hk]. destruct (f x) as [e|y] eqn:Hx; simpl in Hk; [done|].
      destruct (mapM f l) as [e|k'] eqn:Hl; simpl in Hk; [done|].
      intros x' [->|Hin]%elem_of_cons; [eauto|].
      apply IH; eauto.
    + intros Hall. destruct (Hall x) as [y ->]; [by left|]. simpl.
      destruct IH as [_ [k' ->]].
      * intros ??. apply Hall. by right.
      * simpl. by eexists.
Qed.

(** A candidate the loop can read, entry by entry. *)
Lemma path_well_formed `{!Collaborators} (po : PathObject) :
  candidate_readable po ↔
  is_Some (po !! "estimated_fee") ∧
  ∃ path nodes,
    po !! "path" = Some path ∧
    py_iter path = inr nodes ∧
    (2 ≤ length nodes)%nat ∧
    ∀ node, node ∈ nodes → ∃ a, to_canonical_address node = inr a.
Proof.
  unfold candidate_readable. split.
  - intros (fee & cp & p & Hfee & Hcp & Hp). split; [eauto|].
    apply canonical_path_of_inr in Hcp as (path & nodes & Hpath & Hnodes & Hconv).
    exists path, nodes. split_and!; try done.
    + apply Forall2_length in Hconv. apply lookup_lt_Some in Hp. lia.
    + apply mapM_result_returns. exists cp. by apply mapM_result_Forall2.
  - intros [[fee Hfee] (path & nodes & Hpath & Hnodes & Hlen & Hall)].
    apply mapM_result_returns in Hall as [cp Hcp].
    apply mapM_result_Forall2 in Hcp.
    pose proof (Forall2_length _ _ _ Hcp) as Hlen'.
    destruct (cp !! 1%nat) as [p|] eqn:Hp.
    + exists fee, cp, p. split_and!; try done.
      apply canonical_path_of_inr. by exists path, nodes.
    + apply lookup_ge_None in Hp. lia.
Qed.

Lemma pfs_paths_loop_returns `{!Collaborators} cs tna prev cands paths :
  (∀ po, po ∈ cands → candidate_readable po) →
  ∃ t, pfs_paths_loop cs tna prev cands paths
         = (t, inr (paths ++ omap (pfs_candidate_route cs tna prev) cands)).
Proof.
  intros Hall.
  assert (∃ t out, pfs_paths_loop cs tna prev cands paths = (t, inr out))
    as (t & out & Hloop).
  { revert paths. induction cands as [|po rest IH]; intros paths.
    - simpl. by do 2 eexists.
    - assert (∀ paths', ∃ t out,
                pfs_paths_loop cs tna prev rest paths' = (t, inr out)) as Hrest.
      { intros paths'. apply IH. intros ??. apply Hall. by right. }
      destruct (Hall po) as (fee & cp & p & Hread); [by left|].
      apply read_candidate_inr in Hread.
      rewrite pfs_paths_loop_cons, Hread.
      case_decide; [apply Hrest|].
      destruct (get_channelstate_by_token_network_and_partner cs tna p) as [c|];
        [|apply Hrest].
      case_decide; [|apply Hrest].
      destruct (Hrest paths) as (t & out & ->). by do 2 eexists. }
  exists t. rewrite Hloop.
  by destruct (pfs_paths_loop_Ok _ _ _ _ _ _ _ Hloop) as [-> _].
Qed.

(** Once the service has answered, [get_best_routes_pfs] returns exactly
    when every entry of the answer holds the keys ["path"] and
    ["estimated_fee"], its path can be iterated and has at least two
    nodes, and every node of the path converts to an address; one entry
    that lacks a key, or whose path is no sequence, is too short or holds
    a node that does not convert, makes the whole call raise, whatever the
    other candidates are (lines 144-152). *)
Theorem pfs_returns_iff_paths_well_formed `{!Collaborators}
    cs tna o2n from to amount prev cfg key w cands tok :
  query_paths (query_paths_kwargs cs tna o2n from to amount cfg key w)
    = inr (cands, tok) →
  (∃ t v, get_best_routes_pfs cs tna o2n from to amount prev cfg key w = (t, inr v)) ↔
  (∀ po, po ∈ cands →
     is_Some (po !! "estimated_fee") ∧
     ∃ path nodes,
       po !! "path" = Some path ∧
       py_iter path = inr nodes ∧
       (2 ≤ length nodes)%nat ∧
       ∀ node, node ∈ nodes → ∃ a, to_canonical_address node = inr a).
Proof.
  intros Hq. split.
  - intros (t & [[msg routes] tok'] & Hrun) po Hin.
    apply get_best_routes_pfs_inv in Hrun
      as [(a0 & a1 & Hq' & _)|(cands' & Hq' & _ & _ & Hall)]; [congruence|].
    assert (cands' = cands) as -> by congruence.
    apply path_well_formed. by apply Hall.
  - intros Hall. rewrite get_best_routes_pfs_unfold. simpl. rewrite Hq.
    destruct (pfs_paths_loop_returns cs tna prev cands []) as [t ->].
    + intros po Hin. apply path_well_formed. by apply Hall.
    + simpl. by do 2 eexists.
Qed.

Lemma pfs_returns_iff_paths_well_formed_witness :
  let E := Scenario.node [] [3] Scenario.answer_paths in
  (∃ t v, @get_best_routes_pfs E Scenario.chain Scenario.network Scenario.one_to_n
            Scenario.payer Scenario.payee 100 None Scenario.config Scenario.key 25
          = (t, inr v)) ↔
  (∀ po, po ∈ [Scenario.through_x; Scenario.through_y] →
     is_Some (po !! "estimated_fee") ∧
     ∃ path nodes,
       po !! "path" = Some path ∧
       py_iter path = inr nodes ∧
       (2 ≤ length nodes)%nat ∧
       ∀ node, node ∈ nodes → ∃ a, @to_canonical_address E node = inr a).
Proof.
  intros E.
  apply (@pfs_returns_iff_paths_well_formed E
           Scenario.chain Scenario.network Scenario.one_to_n
           Scenario.payer Scenario.payee 100 None Scenario.config Scenario.key 25
           [Scenario.through_x; Scenario.through_y] (Some 9%N)).
  reflexivity.
Defined.

(** When [get_best_routes_pfs] returns on an answer of the service, a
    route is in its list exactly when it stems from a candidate of the
    answer whose converted path it is, whose second address is not the
    previous address and has a channel with status opened, and whose
    estimated fee it carries (lines 144-182). *)
Theorem pfs_routes_are_the_accepted_candidates `{!Collaborators}
    cs tna o2n from to amount prev cfg key w t msg routes tok cands tok' :
  get_best_routes_pfs cs tna o2n from to amount prev cfg key w
    = (t, inr (msg, routes, tok)) →
  query_paths (query_paths_kwargs cs tna o2n from to amount cfg key w)
    = inr (cands, tok') →
  ∀ r, r ∈ routes ↔
    ∃ po p c,
      po ∈ cands ∧
      (∃ path nodes,
         po !! "path" = Some path ∧
         py_iter path = inr nodes ∧
         Forall2 (λ node a, to_canonical_address node = inr a) nodes (route r)) ∧
      route r !! 1%nat = Some p ∧
      Some p ≠ prev ∧
      get_channelstate_by_token_network_and_partner cs tna p = Some c ∧
      get_status c = STATE_OPENED ∧
      po !! "estimated_fee" = Some (estimated_fee r).
Proof.
  intros Hrun Hq r.
  apply get_best_routes_pfs_inv in Hrun
    as [(a0 & a1 & Hq' & _)|(cands' & Hq' & _ & -> & _)]; [congruence|].
  assert (cands' = cands) as -> by congruence.
  rewrite list_elem_of_omap. split.
  - intros (po & Hin & Hpo).
    apply pfs_candidate_route_Some in Hpo as (p & c & Hcp & Hp & Hprev & Hc & Hst & Hfee).
    exists po, p, c. split_and!; try done. by apply canonical_path_of_inr.
  - intros (po & p & c & Hin & Hcp & Hp & Hprev & Hc & Hst & Hfee).
    exists po. split; [done|]. apply pfs_candidate_route_Some.
    exists p, c. split_and!; try done. by apply canonical_path_of_inr.
Qed.

Lemma pfs_routes_are_the_accepted_candidates_witness :
  let E := Scenario.node [] [3] Scenario.answer_paths in
  let via_x := {| route := [Scenario.payer; Scenario.hop_x; Scenario.payee];
                  estimated_fee := 5 |} in
  via_x ∈ [via_x] ↔
    ∃ po p c,
      po ∈ [Scenario.through_x; Scenario.through_y] ∧
      (∃ path nodes,
         po !! "path" = Some path ∧
         py_iter path = inr nodes ∧
         Forall2 (λ node a, @to_canonical_address E node = inr a)
           nodes (route via_x)) ∧
      route via_x !! 1%nat = Some p ∧
      Some p ≠ None ∧
      @get_channelstate_by_token_network_and_partner E
        Scenario.chain Scenario.network p = Some c ∧
      @get_status E c = STATE_OPENED ∧
      po !! "estimated_fee" = Some (estimated_fee via_x).
Proof.
  intros E via_x.
  apply (@pfs_routes_are_the_accepted_candidates E
           Scenario.chain Scenario.network Scenario.one_to_n
           Scenario.payer Scenario.payee 100 None Scenario.config Scenario.key 25
           (@get_best_routes_pfs E Scenario.chain Scenario.network Scenario.one_to_n
              Scenario.payer Scenario.payee 100 None Scenario.config Scenario.key 25).1
           None [via_x] (Some 9%N)
           [Scenario.through_x; Scenario.through_y] (Some 9%N)).
  - reflexivity.
  - reflexivity.
Defined.

(** The routes of [get_best_routes_pfs] come in the order of the
    candidates of the answer, one per accepted candidate: the list is the
    answer with the discarded candidates left out and the kept ones turned
    into routes, and it is never longer than the answer (lines 144-184). *)
Theorem pfs_routes_keep_the_order_of_the_answer `{!Collaborators}
    cs tna o2n from to amount prev cfg key w t msg routes tok cands tok' :
  get_best_routes_pfs cs tna o2n from to amount prev cfg key w
    = (t, inr (msg, routes, tok)) →
  query_paths (query_paths_kwargs cs tna o2n from to amount cfg key w)
    = inr (cands, tok') →
  routes = omap (pfs_candidate_route cs tna prev) cands ∧
  (length routes ≤ length cands)%nat ∧
  tok = tok'.
Proof.
  intros Hrun Hq.
  apply get_best_routes_pfs_inv in Hrun
    as [(a0 & a1 & Hq' & _)|(cands' & Hq' & _ & -> & _)]; [congruence|].
  assert (cands' = cands ∧ tok = tok') as [-> ->] by (split; congruence).
  split_and!; [done| |done].
  clear Hq Hq'. induction cands as [|po rest IH]; [done|].
  change (omap (pfs_candidate_route cs tna prev) (po :: rest))
    with (match pfs_candidate_route cs tna prev po with
          | Some r => r :: omap (pfs_candidate_route cs tna prev) rest
          | None => omap (pfs_candidate_route cs tna prev) rest
          end).
  destruct (pfs_candidate_route cs tna prev po); simpl length; lia.
Qed.

Lemma pfs_routes_keep_the_order_of_the_answer_witness :
  let E := Scenario.node [] [] Scenario.answer_paths in
  let via_x := {| route := [Scenario.payer; Scenario.hop_x; Scenario.payee];
                  estimated_fee := 5 |} in
  let via_y := {| route := [Scenario.payer; Scenario.hop_y; Scenario.payee];
                  estimated_fee := 2 |} in
  [via_x; via_y]
    = omap (@pfs_candidate_route E Scenario.chain Scenario.network None)
        [Scenario.through_x; Scenario.through_y] ∧
  (length [via_x; via_y] ≤ length [Scenario.through_x; Scenario.through_y])%nat ∧
  Some 9%N = Some 9%N.
Proof.
  intros E via_x via_y.
  apply (@pfs_routes_keep_the_order_of_the_answer E
           Scenario.chain Scenario.network Scenario.one_to_n
           Scenario.payer Scenario.payee 100 None Scenario.config Scenario.key 25
           (@get_best_routes_pfs E Scenario.chain Scenario.network Scenario.one_to_n
              Scenario.payer Scenario.payee 100 None Scenario.config Scenario.key 25).1
           None [via_x; via_y] (Some 9%N)
           [Scenario.through_x; Scenario.through_y] (Some 9%N)).
  - reflexivity.
  - reflexivity.
Defined.

(** ** The orchestrator over the path-finding answer *)

(** When the service answers with candidates that can be read (each has
    a fee and a path that converts) and the validation discards every one
    of them (the next hop is the previous address, or has no channel, or
    has a channel that is not opened), [get_best_routes]
    reports ["PFS could not find any routes"] and drops the feedback token
    of the answer (lines 90-94, the test is made on the validated list). *)
Theorem all_candidates_discarded_reported_as_no_routes `{!Collaborators}
    cs tna o2n from to amount prev cfg key tn cands tok :
  get_token_network_by_address cs tna = Some tn →
  no_usable_direct_channel tn to amount →
  query_paths (query_paths_kwargs cs tna o2n from to amount cfg key
                 (latest_channel_opened_at tn)) = inr (cands, tok) →
  (∀ po, po ∈ cands →
     is_Some (po !! "estimated_fee") ∧
     ∃ cp p, canonical_path_of po = inr cp ∧
             cp !! 1%nat = Some p ∧
             (Some p = prev ∨
              get_channelstate_by_token_network_and_partner cs tna p = None ∨
              ∃ c, get_channelstate_by_token_network_and_partner cs tna p = Some c ∧
                   get_status c ≠ STATE_OPENED)) →
  ∃ t,
    get_best_routes cs tna (Some o2n) from to amount prev (Some cfg) key
      = (t, Ok (Some "PFS could not find any routes", [], None)).
Proof.
  intros Htn Hno Hq Hall.
  destruct (direct_channel_lookup_none tn from to amount Hno) as (t0 & Hd & _).
  rewrite (get_best_routes_unfold _ _ _ _ _ _ _ _ _ _ Htn). rewrite Hd. simpl.
  rewrite get_best_routes_pfs_unfold. simpl. rewrite Hq.
  destruct (pfs_paths_loop_returns cs tna prev cands []) as [t1 ->].
  { intros po Hin. destruct (Hall po Hin) as ([fee Hfee] & cp & p & Hcp & Hp & _).
    by exists fee, cp, p. }
  assert (omap (pfs_candidate_route cs tna prev) cands = []) as ->.
  { clear Hq. induction cands as [|po rest IH]; [done|].
    change (omap (pfs_candidate_route cs tna prev) (po :: rest))
      with (match pfs_candidate_route cs tna prev po with
            | Some r => r :: omap (pfs_candidate_route cs tna prev) rest
            | None => omap (pfs_candidate_route cs tna prev) rest
            end).
    destruct (pfs_candidate_route cs tna prev po) as [r|] eqn:Hr.
    - apply pfs_candidate_route_Some in Hr as (p & c & Hcp & Hp & Hprev & Hc & Hst & _).
      destruct (Hall po) as (_ & cp' & p' & Hcp' & Hp' & Hrej); [by left|].
      assert (cp' = route r) as -> by congruence.
      assert (p' = p) as -> by congruence.
      destruct Hrej as [?|[?|(c' & ? & ?)]]; congruence.
    - apply IH. intros ??. apply Hall. by right. }
  simpl. by eexists.
Qed.

Lemma all_candidates_discarded_reported_as_no_routes_witness :
  ∃ t,
    @get_best_routes (Scenario.node [] [2] (Ok ([Scenario.through_x], Some 9%N)))
      Scenario.chain Scenario.network (Some Scenario.one_to_n)
      Scenario.payer Scenario.payee 100 None (Some Scenario.config) Scenario.key
      = (t, Ok (Some "PFS could not find any routes", [], None)).
Proof.
  apply (@all_candidates_discarded_reported_as_no_routes
           (Scenario.node [] [2] (Ok ([Scenario.through_x], Some 9%N)))
           Scenario.chain Scenario.network Scenario.one_to_n
           Scenario.payer Scenario.payee 100 None Scenario.config Scenario.key
           Scenario.token_network [Scenario.through_x] (Some 9%N)).
  - reflexivity.
  - apply scenario_no_usable_direct_channel.
  - reflexivity.
  - intros po ->%list_elem_of_singleton.
    split; [by eexists|].
    exists [Scenario.payer; Scenario.hop_x; Scenario.payee], Scenario.hop_x.
    split; [reflexivity|]. split; [reflexivity|].
    right; right. exists (Scenario.channel 2 Scenario.hop_x 25).
    split; [reflexivity|]. vm_compute. discriminate.
Defined.

(** A feedback token returned by [get_best_routes] is the token of the
    answer of the path-finding service, and it comes with no message and
    with the validated routes of that answer, in order and not empty
    (lines 96-99). *)
Theorem feedback_token_is_the_token_of_the_answer `{!Collaborators}
    cs tna o2n from to amount prev cfg key t msg routes token :
  get_best_routes cs tna o2n from to amount prev cfg key
    = (t, inr (msg, routes, Some token)) →
  msg = None ∧ routes ≠ [] ∧
  ∃ tn cfg' o2n' cands,
    get_token_network_by_address cs tna = Some tn ∧
    cfg = Some cfg' ∧ o2n = Some o2n' ∧
    query_paths (query_paths_kwargs cs tna o2n' from to amount cfg' key
                   (latest_channel_opened_at tn)) = inr (cands, Some token) ∧
    routes = omap (pfs_candidate_route cs tna prev) cands.
Proof.
  intros Hrun. apply get_best_routes_inv in Hrun
    as [[=]|[(_ & _ & [=] & _)|
        (tn & cfg' & o2n' & t1 & msg' & routes' & tok' & Htn & -> & -> & Hp & Hcases)]].
  destruct Hcases as [(_ & _ & _ & _ & [=])|[(-> & Hne & -> & -> & <-)|(_ & _ & _ & [=])]].
  split; [done|]. split; [done|].
  apply get_best_routes_pfs_inv in Hp
    as [(a0 & a1 & _ & _ & _ & [=] & _)|(cands & Hq & _ & -> & _)].
  exists tn, cfg', o2n', cands. done.
Qed.

Lemma feedback_token_is_the_token_of_the_answer_witness :
  let E := Scenario.node [] [3] Scenario.answer_paths in
  let via_x := {| route := [Scenario.payer; Scenario.hop_x; Scenario.payee];
                  estimated_fee := 5 |} in
  @None string = None ∧ [via_x] ≠ [] ∧
  ∃ tn cfg' o2n' cands,
    @get_token_network_by_address E Scenario.chain Scenario.network = Some tn ∧
    Some Scenario.config = Some cfg' ∧ Some Scenario.one_to_n = Some o2n' ∧
    @query_paths E
      (query_paths_kwargs Scenario.chain Scenario.network o2n'
         Scenario.payer Scenario.payee 100 cfg' Scenario.key
         (latest_channel_opened_at tn)) = inr (cands, Some 9%N) ∧
    [via_x] = omap (@pfs_candidate_route E Scenario.chain Scenario.network None) cands.
Proof.
  intros E via_x.
  apply (@feedback_token_is_the_token_of_the_answer E
           Scenario.chain Scenario.network (Some Scenario.one_to_n)
           Scenario.payer Scenario.payee 100 None (Some Scenario.config)
           Scenario.key
           (run_call (Scenario.call E Scenario.payee None (Some Scenario.config))).1
           None [via_x] 9%N).
  reflexivity.
Defined.

Lemma queries_of_none (t : list Event) :
  (∀ args, PathsQueried args ∉ t) → queries_of t = [].
Proof.
  unfold queries_of. induction t as [|ev t IH]; intros Hno; [done|].
  assert (∀ args, PathsQueried args ∉ t) as Hno'.
  { intros args Hin. apply (Hno args). by right. }
  destruct ev as [id|args|lvl s]; simpl.
  - by apply IH.
  - exfalso. apply (Hno args). by left.
  - by apply IH.
Qed.

Lemma queries_of_app (t1 t2 : list Event) :
  queries_of (t1 ++ t2) = queries_of t1 ++ queries_of t2.
Proof. unfold queries_of. apply omap_app. Qed.

(** One call of [get_best_routes] asks the path-finding service at most
    once; when it asks, the query is built from the arguments of the call
    and the latest opening block of the token network, and both the
    configuration and the one-to-N address were given. *)
Theorem at_most_one_query_per_call `{!Collaborators}
    cs tna o2n from to amount prev cfg key :
  queries_of (get_best_routes cs tna o2n from to amount prev cfg key).1 = [] ∨
  ∃ tn cfg' o2n',
    get_token_network_by_address cs tna = Some tn ∧
    cfg = Some cfg' ∧ o2n = Some o2n' ∧
    queries_of (get_best_routes cs tna o2n from to amount prev cfg key).1
      = [query_paths_kwargs cs tna o2n' from to amount cfg' key
           (latest_channel_opened_at tn)].
Proof.
  destruct (get_token_network_by_address cs tna) as [tn|] eqn:Htn;
    [|left; by rewrite get_best_routes_no_network].
  rewrite (get_best_routes_unfold _ _ _ _ _ _ _ _ _ _ Htn). simpl.
  destruct (direct_channel_lookup tn from to amount) as [t0 r0] eqn:Hd.
  destruct (direct_channel_lookup_inv _ _ _ _ _ _ Hd) as [Hq0 _].
  apply queries_of_none in Hq0. simpl.
  destruct r0 as [e|[returned|]]; simpl; [by left..|].
  destruct cfg as [cfg'|]; [destruct o2n as [o2n'|]|]; simpl.
  - right. exists tn, cfg', o2n'. split_and!; try done.
    assert (queries_of (get_best_routes_pfs cs tna o2n' from to amount prev cfg' key
                          (latest_channel_opened_at tn)).1
            = [query_paths_kwargs cs tna o2n' from to amount cfg' key
                 (latest_channel_opened_at tn)]) as Hone.
    { rewrite get_best_routes_pfs_unfold. simpl.
      destruct (query_paths _) as [[]|[cands token]]; simpl; try done.
      - by destruct (splat_keywords _ _).
      - f_equal. apply queries_of_none. intros args. apply pfs_paths_loop_trace. }
    destruct (get_best_routes_pfs _ _ _ _ _ _ _ _ _ _)
      as [t1 [e|[[msg' routes'] tok']]]; simpl in *.
    + by rewrite queries_of_app, Hq0, Hone.
    + destruct (opt_str_truthy msg'); simpl;
        [|destruct (list_truthy routes'); simpl];
        rewrite !queries_of_app, ?Hq0, ?Hone; done.
  - left. by rewrite queries_of_app, Hq0.
  - left. by rewrite queries_of_app, Hq0.
Qed.

(** Every route that [get_best_routes] returns, direct or validated from
    the answer of the service, has at least two addresses. *)
Theorem returned_routes_have_a_next_hop `{!Collaborators}
    cs tna o2n from to amount prev cfg key t msg routes tok :
  get_best_routes cs tna o2n from to amount prev cfg key = (t, inr (msg, routes, tok)) →
  ∀ r, r ∈ routes → (2 ≤ length (route r))%nat.
Proof.
  intros Hrun r Hr. apply get_best_routes_inv in Hrun
    as [[= -> -> ->]|[(_ & -> & _)|
        (tn & cfg' & o2n' & t1 & msg' & routes' & tok' & _ & _ & _ & Hp & Hcases)]].
  - apply list_elem_of_singleton in Hr as ->. simpl. lia.
  - by apply elem_of_nil in Hr.
  - destruct Hcases as [(_ & _ & _ & -> & _)|[(_ & _ & _ & -> & _)|(_ & _ & -> & _)]];
      try by apply elem_of_nil in Hr.
    apply get_best_routes_pfs_inv in Hp
      as [(_ & _ & _ & _ & -> & _)|(cands & _ & _ & -> & _)];
      [by apply elem_of_nil in Hr|].
    apply list_elem_of_omap in Hr as (po & _ & Hpo).
    apply pfs_candidate_route_Some in Hpo as (p & c & _ & Hp' & _).
    apply lookup_lt_Some in Hp'. lia.
Qed.

Lemma returned_routes_have_a_next_hop_witness :
  let via_x := {| route := [Scenario.payer; Scenario.hop_x; Scenario.payee];
                  estimated_fee := 5 |} in
  (2 ≤ length (route via_x))%nat.
Proof.
  intros via_x.
  apply (@returned_routes_have_a_next_hop
           (Scenario.node [] [3] Scenario.answer_paths)
           Scenario.chain Scenario.network (Some Scenario.one_to_n)
           Scenario.payer Scenario.payee 100 None (Some Scenario.config)
           Scenario.key
           (run_call (Scenario.call (Scenario.node [] [3] Scenario.answer_paths)
                        Scenario.payee None (Some Scenario.config))).1
           None [via_x] (Some 9%N)).
  - reflexivity.
  - apply list_elem_of_singleton. reflexivity.
Defined.

(** Outside the direct case, every route that [get_best_routes] returns
    leads to a next hop that is not the previous address and to which the
    token network holds a channel with status opened. *)
Theorem mediated_routes_have_an_open_next_hop `{!Collaborators}
    cs tna o2n from to amount prev cfg key t msg routes tok :
  get_best_routes cs tna o2n from to amount prev cfg key = (t, inr (msg, routes, tok)) →
  routes = [{| route := [from; to]; estimated_fee := 0 |}] ∨
  ∀ r, r ∈ routes →
    ∃ p c, route r !! 1%nat = Some p ∧
           Some p ≠ prev ∧
           get_channelstate_by_token_network_and_partner cs tna p = Some c ∧
           get_status c = STATE_OPENED.
Proof.
  intros Hrun. apply get_best_routes_inv in Hrun
    as [[= -> -> ->]|[(_ & -> & _)|
        (tn & cfg' & o2n' & t1 & msg' & routes' & tok' & _ & _ & _ & Hp & Hcases)]].
  - by left.
  - right. intros r []%elem_of_nil.
  - right. intros r Hr.
    destruct Hcases as [(_ & _ & _ & -> & _)|[(_ & _ & _ & -> & _)|(_ & _ & -> & _)]];
      try by apply elem_of_nil in Hr.
    apply get_best_routes_pfs_inv in Hp
      as [(_ & _ & _ & _ & -> & _)|(cands & _ & _ & -> & _)];
      [by apply elem_of_nil in Hr|].
    apply list_elem_of_omap in Hr as (po & _ & Hpo).
    apply pfs_candidate_route_Some in Hpo as (p & c & _ & Hp' & Hprev & Hc & Hst & _).
    eauto 6.
Qed.

Lemma mediated_routes_have_an_open_next_hop_witness :
  let E := Scenario.node [] [] Scenario.answer_paths in
  let via_y := {| route := [Scenario.payer; Scenario.hop_y; Scenario.payee];
                  estimated_fee := 2 |} in
  [via_y] = [{| route := [Scenario.payer; Scenario.payee]; estimated_fee := 0 |}] ∨
  ∀ r, r ∈ [via_y] →
    ∃ p c, route r !! 1%nat = Some p ∧
           Some p ≠ Some Scenario.hop_x ∧
           @get_channelstate_by_token_network_and_partner E
             Scenario.chain Scenario.network p = Some c ∧
           @get_status E c = STATE_OPENED.
Proof.
  intros E via_y.
  apply (@mediated_routes_have_an_open_next_hop E
           Scenario.chain Scenario.network (Some Scenario.one_to_n)
           Scenario.payer Scenario.payee 100 (Some Scenario.hop_x)
           (Some Scenario.config) Scenario.key
           (run_call (Scenario.call E Scenario.payee (Some Scenario.hop_x)
                        (Some Scenario.config))).1
           None [via_y] (Some 9%N)).
  reflexivity.
Defined.

(** ** The resolution of peer-supplied routes *)

(** [resolve_routes] returns on every input: it never raises, returns at
    most one route per candidate, and every route it returns has at least
    two addresses (lines 197-216, the guard of line 199 protects the read
    of line 205). *)
Theorem resolve_routes_returns `{!Collaborators} metas tna cs :
  ∃ out,
    resolve_routes metas tna cs = Ok out ∧
    (length out ≤ length metas)%nat ∧
    ∀ r, r ∈ out → (2 ≤ length (route r))%nat.
Proof.
  rewrite resolve_routes_Ok. eexists. split; [done|]. split.
  - induction metas as [|rm rest IH]; [done|].
    change (omap (metadata_candidate_route cs tna) (rm :: rest))
      with (match metadata_candidate_route cs tna rm with
            | Some r => r :: omap (metadata_candidate_route cs tna) rest
            | None => omap (metadata_candidate_route cs tna) rest
            end).
    destruct (metadata_candidate_route cs tna rm); simpl length; lia.
  - intros r (rm & _ & Hrm)%list_elem_of_omap.
    apply metadata_candidate_route_Some in Hrm as (p & c & Hp & _ & ->). simpl.
    apply lookup_lt_Some in Hp. lia.
Qed.

(** Resolving a concatenation of candidate lists gives the concatenation
    of the resolutions: each candidate is judged on its own, and the
    order of the candidates is kept. *)
Theorem resolve_routes_app `{!Collaborators} metas1 metas2 tna cs out1 out2 :
  resolve_routes metas1 tna cs = Ok out1 →
  resolve_routes metas2 tna cs = Ok out2 →
  resolve_routes (metas1 ++ metas2) tna cs = Ok (out1 ++ out2).
Proof.
  rewrite !resolve_routes_Ok. intros [= <-] [= <-]. by rewrite omap_app.
Qed.

Lemma resolve_routes_app_witness :
  let E := Scenario.node [] [3] Scenario.answer_nothing in
  @resolve_routes E
    ([Scenario.metadata_y; Scenario.metadata_short] ++ [Scenario.metadata_x])
    Scenario.network Scenario.chain
  = Ok ([{| route := [Scenario.payer; Scenario.hop_y; Scenario.payee];
            estimated_fee := 0 |}] ++
        [{| route := [Scenario.payer; Scenario.hop_x; Scenario.payee];
            estimated_fee := 0 |}]).
Proof.
  intros E.
  apply (@resolve_routes_app E
           [Scenario.metadata_y; Scenario.metadata_short] [Scenario.metadata_x]
           Scenario.network Scenario.chain).
  - reflexivity.
  - reflexivity.
Defined.

(** ** The latest opening block *)

Lemma latest_channel_opened_at_bounds (tn : TokenNetworkState) :
  0 ≤ latest_channel_opened_at tn ∧
  (∀ id c, channelidentifiers_to_channels tn !! id = Some c →
           finished_block_number (open_transaction c) ≤ latest_channel_opened_at tn) ∧
  (latest_channel_opened_at tn = 0 ∨
   ∃ id c, channelidentifiers_to_channels tn !! id = Some c ∧
           finished_block_number (open_transaction c) = latest_channel_opened_at tn).
Proof.
  unfold latest_channel_opened_at.
  set (f := λ c : NettingChannelState, finished_block_number (open_transaction c)).
  set (l := (map_to_list (channelidentifiers_to_channels tn)).*2).
  assert (∀ c, c ∈ l ↔ ∃ id, channelidentifiers_to_channels tn !! id = Some c) as Hl.
  { intros c. unfold l. rewrite list_elem_of_fmap. split.
    - intros ([id c'] & -> & Hin). exists id. by apply elem_of_map_to_list.
    - intros [id Hid]. exists (id, c). split; [done|]. by apply elem_of_map_to_list. }
  split_and!.
  - apply foldl_max_lower.
  - intros id c Hc. apply (foldl_max_upper f). apply Hl. eauto.
  - destruct (foldl_max_attained f l 0) as [?|(c & Hc & Heq)]; [by left|].
    right. apply Hl in Hc as [id Hid]. by exists id, c.
Qed.

(** The bound passed to the path-finding service never decreases when
    channels are added to the token network: a token network holding all
    the channels of another has a latest opening block at least as
    large (lines 70-74). *)
Theorem latest_channel_opened_at_mono (tn1 tn2 : TokenNetworkState) :
  channelidentifiers_to_channels tn1 ⊆ channelidentifiers_to_channels tn2 →
  latest_channel_opened_at tn1 ≤ latest_channel_opened_at tn2.
Proof.
  intros Hsub.
  destruct (latest_channel_opened_at_bounds tn1) as (_ & _ & Hatt).
  destruct (latest_channel_opened_at_bounds tn2) as (Hlow & Hup & _).
  destruct Hatt as [->|(id & c & Hc & <-)]; [done|].
  apply (Hup id). by eapply lookup_weaken.
Qed.

Lemma latest_channel_opened_at_mono_witness :
  latest_channel_opened_at Scenario.token_network
    ≤ latest_channel_opened_at Scenario.grown_network.
Proof.
  apply (latest_channel_opened_at_mono Scenario.token_network Scenario.grown_network).
  simpl. apply insert_subseteq. reflexivity.
Defined.

(** Recording a channel under a fresh identifier moves the latest opening
    block to the larger of its old value and the opening block of the new
    channel (lines 70-74). *)
Theorem latest_channel_opened_at_insert (tn tn' : TokenNetworkState) id c :
  channelidentifiers_to_channels tn !! id = None →
  channelidentifiers_to_channels tn' = <[id := c]> (channelidentifiers_to_channels tn) →
  latest_channel_opened_at tn' =
    Z.max (latest_channel_opened_at tn) (finished_block_number (open_transaction c)).
Proof.
  intros Hfresh Hins.
  destruct (latest_channel_opened_at_bounds tn) as (Hlow & Hup & Hatt).
  destruct (latest_channel_opened_at_bounds tn') as (Hlow' & Hup' & Hatt').
  assert (latest_channel_opened_at tn ≤ latest_channel_opened_at tn') as Hmono.
  { destruct Hatt as [->|(id0 & c0 & Hc0 & <-)]; [done|].
    apply (Hup' id0). rewrite Hins, lookup_insert_ne; [done|]. congruence. }
  assert (finished_block_number (open_transaction c) ≤ latest_channel_opened_at tn')
    as Hnew.
  { apply (Hup' id). rewrite Hins. apply lookup_insert_eq. }
  destruct Hatt' as [Hzero|(id' & c' & Hc' & Heq)]; [lia|].
  rewrite Hins in Hc'. destruct (decide (id' = id)) as [->|Hne].
  - rewrite lookup_insert_eq in Hc'. injection Hc' as <-. lia.
  - rewrite lookup_insert_ne in Hc' by done. specialize (Hup id' c' Hc'). lia.
Qed.

Lemma latest_channel_opened_at_insert_witness :
  latest_channel_opened_at Scenario.grown_network =
    Z.max (latest_channel_opened_at Scenario.token_network)
          (finished_block_number
             (open_transaction (Scenario.channel 4 Scenario.hop_y 40))).
Proof.
  apply (latest_channel_opened_at_insert Scenario.token_network
           Scenario.grown_network 4 (Scenario.channel 4 Scenario.hop_y 40)).
  - reflexivity.
  - reflexivity.
Defined.

(** ** The context of a failed request *)

Lemma splat_keywords_inl `{!Collaborators} fixed log_info e :
  splat_keywords fixed log_info = inl e → e = TypeError.
Proof.
  unfold splat_keywords.
  destruct log_info as [| | | | |items|items]; try by intros [= <-].
  destruct (existsb _ items); [by intros [= <-]|done].
Qed.

(** When the request fails with a context that the logger call of the
    handler cannot take (it is no dictionary, or one of its keys is
    [log_message] or a name the logger method binds itself), the handler
    itself fails: [get_best_routes] ends with [TypeError] instead of
    returning the message of the failure (lines 138-142). *)
Theorem unloggable_context_raises_TypeError `{!Collaborators}
    cs tna o2n from to amount prev cfg key tn m info :
  get_token_network_by_address cs tna = Some tn →
  no_usable_direct_channel tn to amount →
  query_paths (query_paths_kwargs cs tna o2n from to amount cfg key
                 (latest_channel_opened_at tn))
    = inl (ServiceRequestFailed m info) →
  ¬ context_can_be_logged info →
  (get_best_routes cs tna (Some o2n) from to amount prev (Some cfg) key).2
    = inl TypeError.
Proof.
  intros Htn Hno Hq Hbad.
  destruct (direct_channel_lookup_none tn from to amount Hno) as (t0 & Hd & _).
  rewrite (get_best_routes_unfold _ _ _ _ _ _ _ _ _ _ Htn). rewrite Hd. simpl.
  rewrite get_best_routes_pfs_unfold. simpl. rewrite Hq.
  destruct (splat_keywords _ _) as [e|kw] eqn:Hkw; simpl.
  - by apply splat_keywords_inl in Hkw as ->.
  - destruct Hbad. apply context_can_be_logged_splat. eauto.
Qed.

Lemma unloggable_context_raises_TypeError_witness :
  (@get_best_routes
     (Scenario.node [] []
        (Raise (ServiceRequestFailed "timeout"
                  (Some (PyDict [("log_message", PyStr "x")])))))
     Scenario.chain Scenario.network (Some Scenario.one_to_n)
     Scenario.payer Scenario.payee 100 None (Some Scenario.config) Scenario.key).2
    = inl TypeError.
Proof.
  apply (@unloggable_context_raises_TypeError
           (Scenario.node [] []
              (Raise (ServiceRequestFailed "timeout"
                        (Some (PyDict [("log_message", PyStr "x")])))))
           Scenario.chain Scenario.network Scenario.one_to_n
           Scenario.payer Scenario.payee 100 None Scenario.config Scenario.key
           Scenario.token_network "timeout"
           (Some (PyDict [("log_message", PyStr "x")]))).
  - reflexivity.
  - apply scenario_no_usable_direct_channel.
  - reflexivity.
  - intros [[=]|(items & [= <-] & Hall)].
    destruct (Hall "log_message" (PyStr "x")) as [Hk _]; [by left|]. by destruct Hk.
Defined.
